(** * mygrep: the pattern tree (pattern.c), its parser and driver (mygrep.c)

    A shallow embedding of the two C components and the properties of
    their match, parse and report steps.

    Conventions of the embedding.
    - [char] is [ascii]; a C string is a [string] read up to its first NUL,
      the end of the Rocq string standing for the terminating NUL.
    - [int] values are in [Z].
    - A [bool] array is a list of cells; a cell that was never written holds
      no value ([None]).  Arrays are passed by reference in the source, so
      every match routine takes the current contents of [after] and returns
      the new contents.
    - A run either returns, or leaves through [invalidPattern()], or performs
      an access the C standard gives no meaning to (index out of range, read
      of a cell never written). *)

From Stdlib Require Import ZArith List Ascii String Bool Lia.
Import ListNotations.

Local Open Scope string_scope.
Local Open Scope list_scope.
Local Open Scope Z_scope.

(** ** Outcomes *)

Inductive res (A : Type) : Type :=
| Ok (a : A)
| InvalidPattern   (* invalidPattern(): "Invalid pattern" on stderr, exit(EXIT_FAILURE) *)
| Undefined        (* access out of range, or read of a cell never written *)
| OutOfFuel.       (* the bound given to a while loop was too small *)

Arguments Ok {A} a.
Arguments InvalidPattern {A}.
Arguments Undefined {A}.
Arguments OutOfFuel {A}.

Definition bind {A B : Type} (m : res A) (k : A -> res B) : res B :=
  match m with
  | Ok a => k a
  | InvalidPattern => InvalidPattern
  | Undefined => Undefined
  | OutOfFuel => OutOfFuel
  end.

Notation "x <- m ;; k" := (bind m (fun x => k))
  (at level 61, m at next level, right associativity).

(** ** C strings *)

Definition NUL : ascii := Ascii.zero.

(** [str[i]]: the characters of the buffer, then the terminating NUL. *)
Definition char_at (str : string) (i : Z) : res ascii :=
  if i <? 0 then Undefined
  else match String.get (Z.to_nat i) str with
       | Some c => Ok c
       | None => if (Z.to_nat i =? String.length str)%nat then Ok NUL else Undefined
       end.

(** [strlen]: the number of characters before the first NUL. *)
Fixpoint strlen (s : string) : Z :=
  match s with
  | EmptyString => 0
  | String c s' => if Ascii.eqb c NUL then 0 else 1 + strlen s'
  end.

(** [strchr(s, c) != NULL]: the terminating NUL counts as part of [s]. *)
Fixpoint strchr (s : string) (c : ascii) : bool :=
  match s with
  | EmptyString => Ascii.eqb c NUL
  | String d s' => if Ascii.eqb d NUL then Ascii.eqb c NUL
                   else Ascii.eqb d c || strchr s' c
  end.

(** Conversion of a [size_t] length to [int] (two's complement, 32 bits). *)
Definition int_of (z : Z) : Z := (z + 2147483648) mod 4294967296 - 2147483648.

Definition INT_MAX : Z := 2147483647.

(** ** Arrays of marks *)

Definition cell : Type := option bool.
Definition marks : Type := list cell.

Definition fresh (n : Z) : marks := repeat None (Z.to_nat n).

Definition rd (a : marks) (i : Z) : res bool :=
  if i <? 0 then Undefined
  else match nth_error a (Z.to_nat i) with
       | Some (Some b) => Ok b
       | _ => Undefined
       end.

Fixpoint set_nth (a : marks) (n : nat) (b : bool) : res marks :=
  match a, n with
  | [], _ => Undefined
  | _ :: t, O => Ok (Some b :: t)
  | c :: t, S k => t' <- set_nth t k b ;; Ok (c :: t')
  end.

Definition wr (a : marks) (i : Z) (b : bool) : res marks :=
  if i <? 0 then Undefined else set_nth a (Z.to_nat i) b.

(** [for (int i = i0; i < i0 + n; i++) body], the loop state threaded. *)
Fixpoint for_loop {S : Type} (n : nat) (i : Z) (body : Z -> S -> res S) (s : S)
  : res S :=
  match n with
  | O => Ok s
  | Datatypes.S k => s' <- body i s ;; for_loop k (i + 1) body s'
  end.

(** [while (cond) body], at most [fuel] iterations. *)
Fixpoint while_loop {S : Type} (fuel : nat) (cond : S -> res bool)
  (body : S -> res S) (s : S) : res S :=
  match fuel with
  | O => OutOfFuel
  | Datatypes.S k =>
      c <- cond s ;;
      if c then s' <- body s ;; while_loop k cond body s' else Ok s
  end.

(** ** pattern.c *)

(** The routines a [match] or [destroy] field can point to. *)
Inductive match_fn : Type :=
| MatchSymbol | MatchDot | MatchStartAnchor | MatchEndAnchor
| MatchConcatenation | MatchAlternation
| MatchStar | MatchPlus | MatchQMark.

Inductive destroy_fn : Type :=
| DestroySimple | DestroyBinary | DestroyRepit.

(** The three concrete structs behind the [Pattern] interface. *)
Inductive Pattern : Type :=
| SymbolPattern (mtch : match_fn) (destroy : destroy_fn) (sym : ascii)
| BinaryPattern (mtch : match_fn) (destroy : destroy_fn) (p1 p2 : Pattern)
| RepitPattern (mtch : match_fn) (destroy : destroy_fn) (p : Pattern).

Definition pattern_match (pat : Pattern) : match_fn :=
  match pat with
  | SymbolPattern m _ _ | BinaryPattern m _ _ _ | RepitPattern m _ _ => m
  end.

Definition pattern_destroy (pat : Pattern) : destroy_fn :=
  match pat with
  | SymbolPattern _ d _ | BinaryPattern _ d _ _ | RepitPattern _ d _ => d
  end.

(** The signature of a match routine: [len], [str], [before] and the
    contents of [after] on entry; the contents of [after] on return. *)
Definition matcher : Type := Z -> string -> marks -> marks -> res marks.

(** [isMatch]: [s] is the part of [str] from index [i] on. *)
Fixpoint isMatch_from (s : string) (i : Z) (mk : marks) : res bool :=
  match s with
  | EmptyString => Ok false
  | String c s' =>
      if Ascii.eqb c NUL then Ok false
      else m <- rd mk i ;;
           if m then Ok true else isMatch_from s' (i + 1) mk
  end.

Definition isMatch (str : string) (mk : marks) : res bool :=
  isMatch_from str 0 mk.

Definition matchSymbolPattern (pat : Pattern) : matcher :=
  fun len str before after =>
  match pat with
  | SymbolPattern _ _ sym =>
      after <- wr after 0 false ;;
      for_loop (Z.to_nat len) 0
        (fun i after =>
           b <- rd before i ;;
           v <- (if b then c <- char_at str i ;; Ok (Ascii.eqb c sym)
                 else Ok false) ;;
           wr after (i + 1) v)
        after
  | _ => Undefined
  end.

Definition matchDotPattern (pat : Pattern) : matcher :=
  fun len str before after =>
  after <- wr after 0 false ;;
  for_loop (Z.to_nat len) 0
    (fun i after =>
       b <- rd before i ;;
       v <- (if b then c <- char_at str i ;; Ok (negb (Ascii.eqb c NUL))
             else Ok false) ;;
       wr after (i + 1) v)
    after.

Definition matchStartAnchorPattern (pat : Pattern) : matcher :=
  fun len str before after => wr after 0 true.

Definition matchEndAnchorPattern (pat : Pattern) : matcher :=
  fun len str before after =>
  after <- wr after 0 false ;;
  after <- wr after len true ;;
  b <- rd before (len - 1) ;;
  if negb b
  then for_loop (Z.to_nat (len - 1)) 0 (fun i after => wr after i false) after
  else Ok after.

(** [bool midMarks[len + 1]]: a fresh array, no cell written. *)
Definition vla (n : Z) : res marks :=
  if (0 <? n) && (n <=? INT_MAX) then Ok (fresh n) else Undefined.

Definition matchConcatenationPattern (call : Pattern -> matcher) (pat : Pattern)
  : matcher :=
  fun len str before after =>
  match pat with
  | BinaryPattern _ _ p1 p2 =>
      midMarks <- vla (len + 1) ;;
      midMarks <- call p1 len str before midMarks ;;
      call p2 len str midMarks after
  | _ => Undefined
  end.

Definition matchAlternationPattern (call : Pattern -> matcher) (pat : Pattern)
  : matcher :=
  fun len str before after =>
  match pat with
  | BinaryPattern _ _ p1 p2 =>
      after <- call p1 len str before after ;;
      m <- isMatch str after ;;
      if negb m then call p2 len str before after else Ok after
  | _ => Undefined
  end.

Definition matchStarPattern (pat : Pattern) : matcher :=
  fun len str before after => Ok after.

Definition matchPlusPattern (pat : Pattern) : matcher :=
  fun len str before after => Ok after.

Definition matchQMarkPattern (pat : Pattern) : matcher :=
  fun len str before after => Ok after.

(** [pat->match(pat, len, str, before, after)]. *)
Fixpoint call_match (pat : Pattern) : matcher :=
  match pattern_match pat with
  | MatchSymbol => matchSymbolPattern pat
  | MatchDot => matchDotPattern pat
  | MatchStartAnchor => matchStartAnchorPattern pat
  | MatchEndAnchor => matchEndAnchorPattern pat
  | MatchConcatenation => matchConcatenationPattern call_match pat
  | MatchAlternation => matchAlternationPattern call_match pat
  | MatchStar => matchStarPattern pat
  | MatchPlus => matchPlusPattern pat
  | MatchQMark => matchQMarkPattern pat
  end.

Definition makeSymbolPattern (sym : ascii) : Pattern :=
  SymbolPattern MatchSymbol DestroySimple sym.

Definition makeDotPattern (sym : ascii) : Pattern :=
  SymbolPattern MatchDot DestroySimple sym.

Definition makeStartAnchorPattern (sym : ascii) : Pattern :=
  SymbolPattern MatchStartAnchor DestroySimple sym.

Definition makeEndAnchorPattern (sym : ascii) : Pattern :=
  SymbolPattern MatchEndAnchor DestroySimple sym.

Definition makeConcatenationPattern (p1 p2 : Pattern) : Pattern :=
  BinaryPattern MatchConcatenation DestroyBinary p1 p2.

Definition makeAlternationPattern (p1 p2 : Pattern) : Pattern :=
  BinaryPattern MatchAlternation DestroyBinary p1 p2.

Definition makeStarPattern (p : Pattern) : Pattern :=
  RepitPattern MatchStar DestroyRepit p.

Definition makePlusPattern (p : Pattern) : Pattern :=
  RepitPattern MatchStar DestroyRepit p.

Definition makeQMarkPattern (p : Pattern) : Pattern :=
  RepitPattern MatchStar DestroyRepit p.

(** ** mygrep.c *)

Definition ordinary (c : ascii) : bool :=
  if strchr ".^$*?+|()[{" c then false else true.

(** The parse routines take [str] and the value of [*pos], and return the
    pattern together with the new value of [*pos]. *)
Definition parseAtomicPattern (str : string) (pos : Z) : res (Pattern * Z) :=
  c <- char_at str pos ;;
  if ordinary c then Ok (makeSymbolPattern c, pos + 1)
  else if Ascii.eqb c "." then Ok (makeDotPattern c, pos + 1)
  else if Ascii.eqb c "^" then Ok (makeStartAnchorPattern c, pos + 1)
  else if Ascii.eqb c "$" then Ok (makeEndAnchorPattern c, pos + 1)
  else InvalidPattern.

Definition parseRepetition (str : string) (pos : Z) : res (Pattern * Z) :=
  parseAtomicPattern str pos.

(** Every turn of a parser loop moves [*pos] forward and [*pos] never
    passes the terminating NUL, so this many turns are enough
    (see [parseAlternation_fuel]). *)
Definition parse_fuel (str : string) : nat := S (String.length str).

Definition parseConcatenation (str : string) (pos : Z) : res (Pattern * Z) :=
  st <- parseRepetition str pos ;;
  while_loop (parse_fuel str)
    (fun st : Pattern * Z =>
       c <- char_at str (snd st) ;;
       Ok (negb (Ascii.eqb c NUL) && negb (Ascii.eqb c "|")
           && negb (Ascii.eqb c ")")))
    (fun st : Pattern * Z =>
       r <- parseRepetition str (snd st) ;;
       Ok (makeConcatenationPattern (fst st) (fst r), snd r))
    st.

Definition parseAlternation (str : string) (pos : Z) : res (Pattern * Z) :=
  st <- parseConcatenation str pos ;;
  while_loop (parse_fuel str)
    (fun st : Pattern * Z =>
       c <- char_at str (snd st) ;;
       Ok (negb (Ascii.eqb c NUL) && Ascii.eqb c "|"))
    (fun st : Pattern * Z =>
       r <- parseConcatenation str (snd st + 1) ;;
       Ok (makeAlternationPattern (fst st) (fst r), snd r))
    st.

Section Driver.

(** [sizeof(before) / sizeof(before[0])] with [before] of type [bool *]:
    the number of cells of the array [after] that [main] declares. *)
Variable after_cells : Z.

(** [before = malloc((len + 1) * sizeof(bool))] and the loop filling it. *)
Definition main_before (len : Z) : res marks :=
  for_loop (Z.to_nat len) 0 (fun i before => wr before i true)
    (fresh (len + 1)).

(** One turn of the loop of [main] over the line [str] that [getline]
    stored; the result is whether the line is printed. *)
Definition main_line (pat : Pattern) (str : string) : res bool :=
  let len := int_of (strlen str) in
  before <- main_before len ;;
  let after := fresh after_cells in
  after <- call_match pat (int_of (strlen str)) str before after ;;
  isMatch str after.

(** The lines of the input, each as [getline] stores it (with its
    newline when the input has one); the result is the lines printed. *)
Fixpoint main_loop (pat : Pattern) (input : list string) : res (list string) :=
  match input with
  | [] => Ok []
  | str :: rest =>
      m <- main_line pat str ;;
      out <- main_loop pat rest ;;
      Ok (if m then str :: out else out)
  end.

Definition main (pattern : string) (input : list string) : res (list string) :=
  r <- parseAlternation pattern 0 ;;
  main_loop (fst r) input.

End Driver.

(** A line of the input followed by its newline, as [getline] stores it. *)
Definition ln (s : string) : string := (s ++ String "010" EmptyString)%string.

(** The positions marked in [a] are marked in [b]. *)
Definition marks_subset (a b : marks) : Prop :=
  forall i, nth_error a i = Some (Some true) -> nth_error b i = Some (Some true).

(** The character test of [matchSymbolPattern] at index [i] of the line. *)
Definition line_char_is (line : string) (i : nat) (c : ascii) : bool :=
  match String.get i line with
  | Some d => Ascii.eqb d c
  | None => false
  end.

(** ** reportMarks *)

Definition mark_char (m : bool) : ascii := if m then "*" else " ".

(** The characters [reportMarks] prints; [s] is the part of [str] from
    index [i] on. *)
Fixpoint reportMarks_from (s : string) (i : Z) (mk : marks) : res string :=
  let last :=
    m <- rd mk i ;; Ok (String (mark_char m) (String "010" EmptyString)) in
  match s with
  | EmptyString => last
  | String c s' =>
      if Ascii.eqb c NUL then last
      else m <- rd mk i ;;
           out <- reportMarks_from s' (i + 1) mk ;;
           Ok (String (mark_char m) (String c out))
  end.

Definition reportMarks (str : string) (mk : marks) : res string :=
  reportMarks_from str 0 mk.

(** ** destroy *)

(** The destroy routines return the structs they hand to [free], in the
    order of the calls. *)
Definition destroySimplePattern (pat : Pattern) : res (list Pattern) :=
  Ok [pat].

Definition destroyBinaryPattern (call : Pattern -> res (list Pattern))
  (pat : Pattern) : res (list Pattern) :=
  match pat with
  | BinaryPattern _ _ p1 p2 =>
      f1 <- call p1 ;;
      f2 <- call p2 ;;
      Ok (f1 ++ f2 ++ [pat])
  | _ => Undefined
  end.

Definition destroyRepitPattern (call : Pattern -> res (list Pattern))
  (pat : Pattern) : res (list Pattern) :=
  match pat with
  | RepitPattern _ _ p =>
      f <- call p ;;
      Ok (f ++ [pat])
  | _ => Undefined
  end.

(** [pat->destroy(pat)]. *)
Fixpoint call_destroy (pat : Pattern) : res (list Pattern) :=
  match pattern_destroy pat with
  | DestroySimple => destroySimplePattern pat
  | DestroyBinary => destroyBinaryPattern call_destroy pat
  | DestroyRepit => destroyRepitPattern call_destroy pat
  end.

(** The structs of a tree, children before their parent. *)
Fixpoint postorder (p : Pattern) : list Pattern :=
  match p with
  | SymbolPattern _ _ _ => [p]
  | BinaryPattern _ _ p1 p2 => postorder p1 ++ postorder p2 ++ [p]
  | RepitPattern _ _ q => postorder q ++ [p]
  end.





(** ** Notions used to state the properties of the match routines *)

(** Cell [i] of [a] holds a mark. *)
Definition marked (a : marks) (i : nat) : Prop :=
  nth_error a i = Some (Some true).

(** The first [n] cells of [a] were written. *)
Definition written_upto (a : marks) (n : nat) : Prop :=
  forall i, (i < n)%nat -> exists b, nth_error a i = Some (Some b).

(** The value of cell [i] of [a], [false] when there is none. *)
Definition cell_val (a : marks) (i : nat) : bool :=
  match nth_error a i with
  | Some (Some b) => b
  | _ => false
  end.

(** A test on character [i] of the line. *)
Definition char_test (t : ascii -> bool) (line : string) (i : nat) : bool :=
  match String.get i line with
  | Some d => t d
  | None => false
  end.

(** Trees whose match routines are those of symbols, dots and
    concatenations. *)
Fixpoint seq_pattern (p : Pattern) : bool :=
  match p with
  | SymbolPattern MatchSymbol _ _ => true
  | SymbolPattern MatchDot _ _ => true
  | BinaryPattern MatchConcatenation _ p1 p2 => seq_pattern p1 && seq_pattern p2
  | _ => false
  end.

(** Alternations, at the top of the tree only, of such trees. *)
Fixpoint top_pattern (p : Pattern) : bool :=
  match p with
  | BinaryPattern MatchAlternation _ p1 p2 => top_pattern p1 && top_pattern p2
  | _ => seq_pattern p
  end.

(** [reach p line i j]: the characters of [line] from position [i] up to
    position [j] form a word of the pattern [p], symbols standing for
    themselves, a dot for any character but NUL, concatenation for
    juxtaposition and alternation for choice. *)
Fixpoint reach (p : Pattern) (line : string) (i j : nat) : Prop :=
  match p with
  | SymbolPattern MatchSymbol _ c => j = S i /\ String.get i line = Some c
  | SymbolPattern MatchDot _ _ =>
      j = S i /\ exists d, String.get i line = Some d /\ d <> NUL
  | BinaryPattern MatchConcatenation _ p1 p2 =>
      exists k, reach p1 line i k /\ reach p2 line k j
  | BinaryPattern MatchAlternation _ p1 p2 =>
      reach p1 line i j \/ reach p2 line i j
  | _ => False
  end.

(** ** Notions used to state the properties of the parser *)

(** The characters [parseAtomicPattern] accepts and the leaf it builds for
    each. *)
Definition atom_char (c : ascii) : bool :=
  ordinary c || Ascii.eqb c "." || Ascii.eqb c "^" || Ascii.eqb c "$".

Definition atom (c : ascii) : Pattern :=
  if ordinary c then makeSymbolPattern c
  else if Ascii.eqb c "." then makeDotPattern c
  else if Ascii.eqb c "^" then makeStartAnchorPattern c
  else makeEndAnchorPattern c.

(** The left-nested concatenation of [p] and the leaves of the characters
    of [s]. *)
Fixpoint chain_from (p : Pattern) (s : string) : Pattern :=
  match s with
  | EmptyString => p
  | String c s' => chain_from (makeConcatenationPattern p (atom c)) s'
  end.

(** The tree of a non-empty run [s] of atom characters. *)
Definition chain (s : string) : Pattern :=
  match s with
  | EmptyString => atom NUL
  | String c s' => chain_from (atom c) s'
  end.

Fixpoint all_atom_chars (s : string) : bool :=
  match s with
  | EmptyString => true
  | String c s' => atom_char c && all_atom_chars s'
  end.

(** A non-empty run of atom characters. *)
Definition segment (s : string) : bool :=
  match s with
  | EmptyString => false
  | String _ _ => all_atom_chars s
  end.

(** ['|' seg1 '|' seg2 ... rest]. *)
Fixpoint render_tail (segs : list string) (rest : string) : string :=
  match segs with
  | [] => rest
  | seg :: l => String "|" (seg ++ render_tail l rest)
  end.

(** [s[0]] for a C string [s]. *)
Definition head_char (s : string) : ascii :=
  match s with
  | EmptyString => NUL
  | String c _ => c
  end.

(** [str[k]] for [k] up to the length of [str]. *)
Definition chr (str : string) (k : nat) : ascii :=
  match String.get k str with
  | Some c => c
  | None => NUL
  end.

(** Where the loop of [parseConcatenation] stops, and where a parse may
    end. *)
Definition stop_concat (c : ascii) : bool :=
  Ascii.eqb c NUL || Ascii.eqb c "|" || Ascii.eqb c ")".

Definition final_stop (c : ascii) : bool :=
  Ascii.eqb c NUL || Ascii.eqb c ")".

(** [s] is what is left of [str] from index [i] on. *)
Fixpoint suffix_at (str : string) (i : nat) (s : string) {struct i} : Prop :=
  match i with
  | O => str = s
  | S k => match str with
           | EmptyString => False
           | String _ t => suffix_at t k s
           end
  end.

(** Trees in which every struct carries the routines its constructor
    installs. *)
Fixpoint built (p : Pattern) : bool :=
  match p with
  | SymbolPattern (MatchSymbol | MatchDot | MatchStartAnchor | MatchEndAnchor)
      DestroySimple _ => true
  | BinaryPattern (MatchConcatenation | MatchAlternation) DestroyBinary p1 p2 =>
      built p1 && built p2
  | RepitPattern MatchStar DestroyRepit p => built p
  | _ => false
  end.

(** A character other than the two anchors. *)
Definition not_anchor (c : ascii) : bool :=
  negb (Ascii.eqb c "^") && negb (Ascii.eqb c "$").

(** What holds of the state of the parser loops: the cursor [snd st] is an
    index [j] with [lo < j <= length str], the characters from [from] up to
    [j] satisfy [ok], the tree is built, and it has the shape [shape] when
    those characters are no anchors. *)
Definition scanned (str : string) (ok : ascii -> bool) (shape : Pattern -> bool)
  (from lo : nat) (st : Pattern * Z) : Prop :=
  exists j, snd st = Z.of_nat j /\
            (lo < j <= String.length str)%nat /\
            (forall k, (from <= k < j)%nat -> ok (chr str k) = true) /\
            built (fst st) = true /\
            ((forall k, (from <= k < j)%nat -> not_anchor (chr str k) = true) ->
             shape (fst st) = true).

(** * Properties *)

(** ** Cells and loops *)

Lemma set_nth_ok (a : marks) (n : nat) (b : bool) :
  (n < List.length a)%nat ->
  exists a', set_nth a n b = Ok a' /\ List.length a' = List.length a /\
             nth_error a' n = Some (Some b) /\
             forall m, m <> n -> nth_error a' m = nth_error a m.
Proof.
  revert n; induction a as [|c t IH]; intros n Hn; simpl in Hn; [lia|].
  destruct n as [|k]; simpl.
  - exists (Some b :: t); repeat split; auto.
    intros [|m] Hm; [congruence | reflexivity].
  - destruct (IH k) as (t' & E & L & G & F); [lia|].
    rewrite E; simpl. exists (c :: t'); repeat split; simpl; auto.
    intros [|m] Hm; simpl; auto.
Qed.

Lemma wr_ok (a : marks) (n : nat) (b : bool) :
  (n < List.length a)%nat ->
  exists a', wr a (Z.of_nat n) b = Ok a' /\ List.length a' = List.length a /\
             nth_error a' n = Some (Some b) /\
             forall m, m <> n -> nth_error a' m = nth_error a m.
Proof.
  intros Hn. unfold wr.
  destruct (Z.ltb_spec (Z.of_nat n) 0) as [H|H]; [lia|].
  rewrite Nat2Z.id. now apply set_nth_ok.
Qed.

Lemma rd_some (a : marks) (n : nat) (b : bool) :
  nth_error a n = Some (Some b) -> rd a (Z.of_nat n) = Ok b.
Proof.
  intros H. unfold rd.
  destruct (Z.ltb_spec (Z.of_nat n) 0) as [L|L]; [lia|].
  now rewrite Nat2Z.id, H.
Qed.

Lemma char_at_get (str : string) (n : nat) (c : ascii) :
  String.get n str = Some c -> char_at str (Z.of_nat n) = Ok c.
Proof.
  intros H. unfold char_at.
  destruct (Z.ltb_spec (Z.of_nat n) 0) as [L|L]; [lia|].
  now rewrite Nat2Z.id, H.
Qed.

Lemma get_lt (str : string) (n : nat) :
  (n < String.length str)%nat -> exists c, String.get n str = Some c.
Proof.
  revert n; induction str as [|d s IH]; intros n Hn; simpl in Hn; [lia|].
  destruct n as [|k]; simpl; [eauto|]. apply IH; lia.
Qed.

(** A loop whose turn [i] writes cell [i + 1] with a value [h i] that does
    not depend on the array written. *)
Lemma for_loop_shift (g : Z -> res bool) (h : nat -> bool) :
  forall (k i0 : nat) (a : marks),
    (i0 + k < List.length a)%nat ->
    (forall j, (i0 <= j < i0 + k)%nat -> g (Z.of_nat j) = Ok (h j)) ->
    exists a',
      for_loop k (Z.of_nat i0) (fun i after => v <- g i ;; wr after (i + 1) v) a
      = Ok a' /\
      List.length a' = List.length a /\
      (forall j, (i0 <= j < i0 + k)%nat -> nth_error a' (S j) = Some (Some (h j))) /\
      (forall m, (m <= i0 \/ i0 + k < m)%nat -> nth_error a' m = nth_error a m).
Proof.
  induction k as [|k IH]; intros i0 a Hlen Hg; cbn [for_loop].
  - exists a; repeat split; auto. intros j Hj; lia.
  - rewrite (Hg i0) by lia. cbn [bind].
    replace (Z.of_nat i0 + 1) with (Z.of_nat (S i0)) by lia.
    destruct (wr_ok a (S i0) (h i0)) as (a1 & E1 & L1 & G1 & F1); [lia|].
    rewrite E1; cbn [bind].
    destruct (IH (S i0) a1) as (a' & E & L & G & F).
    + rewrite L1; lia.
    + intros j Hj; apply Hg; lia.
    + exists a'; rewrite E; repeat split.
      * congruence.
      * intros j Hj. destruct (Nat.eq_dec j i0) as [->|Hne].
        -- rewrite F by lia. exact G1.
        -- apply G; lia.
      * intros m Hm. rewrite F by lia. apply F1; lia.
Qed.

Lemma all_written (a : marks) :
  (forall i, (i < List.length a)%nat -> exists b, nth_error a i = Some (Some b)) ->
  exists l : list bool, a = map Some l.
Proof.
  induction a as [|c t IH]; intros H.
  - now exists [].
  - destruct (H 0%nat) as (b & Hb); [simpl; lia|]. simpl in Hb.
    destruct IH as (l & ->).
    + intros i Hi. apply (H (S i)). simpl; lia.
    + exists (b :: l). simpl. now inversion Hb.
Qed.

Lemma bind_assoc {A B C : Type} (m : res A) (f : A -> res B) (k : B -> res C) :
  bind (bind m f) k = bind m (fun x => bind (f x) k).
Proof. now destruct m. Qed.

Lemma for_loop_ext {S : Type} (f g : Z -> S -> res S) :
  (forall i s, f i s = g i s) ->
  forall k i s, for_loop k i f s = for_loop k i g s.
Proof.
  intros H; induction k as [|k IH]; intros i s; simpl; [reflexivity|].
  rewrite H. destruct (g i s); simpl; auto.
Qed.

Lemma nth_error_map_Some (l : list bool) (i : nat) (b : bool) :
  nth_error (map Some l) i = Some (Some b) <-> nth_error l i = Some b.
Proof.
  rewrite nth_error_map. destruct (nth_error l i); simpl; split; congruence.
Qed.

(** ** Symbol *)

(** C9. For a line of length n, a position set [before] of n+1 marks and an
    [after] array of n+1 cells, the match routine of [Symbol c] returns, fills
    every cell of [after], clears position 0 and marks position i+1 exactly
    when position i is marked in [before] and the character i of the line is
    [c]. *)
Theorem matchSymbolPattern_marks
  (c : ascii) (line : string) (before : list bool) (after : marks) :
  List.length before = S (String.length line) ->
  List.length after = S (String.length line) ->
  exists result : list bool,
    call_match (makeSymbolPattern c) (Z.of_nat (String.length line)) line
      (map Some before) after = Ok (map Some result) /\
    List.length result = S (String.length line) /\
    nth_error result 0 = Some false /\
    forall i, (i < String.length line)%nat ->
      nth_error result (S i) = Some (nth i before false && line_char_is line i c).
Proof.
  intros Hb Ha.
  set (n := String.length line) in *.
  set (h := fun i => nth i before false && line_char_is line i c).
  set (g := fun i : Z =>
              b <- rd (map Some before) i ;;
              if b then ch <- char_at line i ;; Ok (Ascii.eqb ch c) else Ok false).
  cbn [call_match makeSymbolPattern pattern_match matchSymbolPattern].
  destruct (wr_ok after 0 false) as (a0 & E0 & L0 & G0 & F0); [lia|].
  change (Z.of_nat 0) with 0 in E0. rewrite E0; cbn [bind].
  rewrite Nat2Z.id.
  rewrite (for_loop_ext _ (fun i after => v <- g i ;; wr after (i + 1) v))
    by (intros i s; unfold g; now rewrite bind_assoc).
  destruct (for_loop_shift g h n 0 a0) as (a' & E & L & G & F).
  - lia.
  - intros j Hj. unfold g, h.
    assert (Hj' : (j < List.length before)%nat) by lia.
    rewrite (rd_some _ j (nth j before false)).
    2:{ apply nth_error_map_Some. now apply nth_error_nth'. }
    cbn [bind]. destruct (nth j before false); [|reflexivity].
    destruct (get_lt line j) as (d & Hd); [fold n; lia|].
    rewrite (char_at_get _ _ _ Hd). unfold line_char_is. now rewrite Hd.
  - change (Z.of_nat 0) with 0 in E. rewrite E.
    assert (H0 : nth_error a' 0 = Some (Some false)).
    { rewrite F by lia. exact G0. }
    destruct (all_written a') as (l & ->).
    { intros i Hi. destruct i as [|j]; [eauto|].
      exists (h j). apply G. lia. }
    exists l. rewrite length_map in L. repeat split.
    + lia.
    + now apply nth_error_map_Some.
    + intros i Hi. apply nth_error_map_Some. apply G. lia.
Qed.

Lemma matchSymbolPattern_marks_witness :
  exists result : list bool,
    call_match (makeSymbolPattern "a") 2 "ab"
      (map Some [true; false; true]) (fresh 3) = Ok (map Some result) /\
    List.length result = 3%nat /\
    nth_error result 0 = Some false /\
    forall i, (i < 2)%nat ->
      nth_error result (S i)
      = Some (nth i [true; false; true] false && line_char_is "ab" i "a").
Proof.
  apply (matchSymbolPattern_marks "a" "ab" [true; false; true] (fresh 3));
    reflexivity.
Defined.

(** ** Repetition *)

(** C10. The three repetition constructors install the same match routine,
    [matchStarPattern], so the patterns they build behave alike on every
    line, every [before] and every [after]. *)
Theorem repetition_constructors_share_match (p : Pattern) :
  pattern_match (makeStarPattern p) = MatchStar /\
  pattern_match (makePlusPattern p) = MatchStar /\
  pattern_match (makeQMarkPattern p) = MatchStar /\
  forall len str before after,
    call_match (makePlusPattern p) len str before after
    = call_match (makeStarPattern p) len str before after /\
    call_match (makeQMarkPattern p) len str before after
    = call_match (makeStarPattern p) len str before after.
Proof. repeat split. Qed.

(** C1. [matchStarPattern] has an empty body: whatever the subpattern, the
    line and [before], the array [after] comes back as it was passed.  On the
    line "a" with position 0 marked in [before] and a fresh [after], no cell
    of the result is written, so the result does not contain [before]. *)
Theorem matchStarPattern_result_misses_before :
  (forall p len str before after,
      call_match (makeStarPattern p) len str before after = Ok after) /\
  call_match (makeStarPattern (makeSymbolPattern "a")) 1 "a"
    [Some true; Some false] (fresh 2) = Ok [None; None] /\
  ~ marks_subset [Some true; Some false] [None; None].
Proof.
  split; [reflexivity|]. split; [reflexivity|].
  intros H. specialize (H 0%nat eq_refl). discriminate H.
Qed.

(** ** Alternation *)

(** C2. [matchAlternationPattern] runs the second branch only when [isMatch]
    finds no mark left by the first, and then into the same array.  On "a"
    the mark the first branch leaves at position 1 is not seen by [isMatch]
    and is overwritten by the second branch; on "ab" the first branch marks
    position 1 and the second branch, which would mark position 2, is not
    run. *)
Theorem matchAlternationPattern_not_union :
  let a := makeSymbolPattern "a" in
  let b := makeSymbolPattern "b" in
  (call_match a 1 "a" [Some true; Some true] (fresh 2)
   = Ok [Some false; Some true] /\
   call_match b 1 "a" [Some true; Some true] (fresh 2)
   = Ok [Some false; Some false] /\
   call_match (makeAlternationPattern a b) 1 "a" [Some true; Some true] (fresh 2)
   = Ok [Some false; Some false]) /\
  (call_match a 2 "ab" [Some true; Some true; Some true] (fresh 3)
   = Ok [Some false; Some true; Some false] /\
   call_match b 2 "ab" [Some true; Some true; Some true] (fresh 3)
   = Ok [Some false; Some false; Some true] /\
   call_match (makeAlternationPattern a b) 2 "ab"
     [Some true; Some true; Some true] (fresh 3)
   = Ok [Some false; Some true; Some false]).
Proof. repeat split. Qed.

(** ** Anchors *)

(** C3. [matchStartAnchorPattern] writes [true] into cell 0 of [after] and
    nothing else: [before] is not read and the other cells keep what they
    held.  With position 0 unmarked in [before] and a fresh [after], cell 0
    of the result is marked and cell 1 was never written.  Through [main]
    (with an [after] of 8 cells), the pattern "b^" prints the line "a":
    the symbol reaches no position, the anchor marks position 0 all the
    same. *)
Theorem matchStartAnchorPattern_forces_first :
  (forall sym len str before c rest,
      call_match (makeStartAnchorPattern sym) len str before (c :: rest)
      = Ok (Some true :: rest)) /\
  call_match (makeStartAnchorPattern "^") 1 "a" [Some false; Some false] (fresh 2)
  = Ok [Some true; None] /\
  main 8 "b^" [ln "a"] = Ok [ln "a"].
Proof. repeat split. Qed.

(** C4. [matchEndAnchorPattern] writes [true] into cell [len] whatever
    [before] holds, tests [before[len - 1]] and not [before[len]], and never
    writes cell [len - 1] when [len > 1].  On "a" with position 1 unmarked
    in [before], position 1 of the result is marked; on "ab" cell 1 of a
    fresh [after] is left unwritten; on the empty line the test reads
    [before[-1]]. *)
Theorem matchEndAnchorPattern_forces_last :
  call_match (makeEndAnchorPattern "$") 1 "a" [Some true; Some false] (fresh 2)
  = Ok [Some false; Some true] /\
  call_match (makeEndAnchorPattern "$") 2 "ab"
    [Some false; Some false; Some false] (fresh 3)
  = Ok [Some false; None; Some true] /\
  call_match (makeEndAnchorPattern "$") 0 "" [Some true] (fresh 1) = Undefined.
Proof. repeat split. Qed.

(** ** Parser *)

(** C5. [parseRepetition] returns what [parseAtomicPattern] returns and
    looks at no operator, so the operator is handed to [parseAtomicPattern]
    by the loop of [parseConcatenation] and the parse leaves through
    [invalidPattern()]: for every character [c] and every rest of the
    pattern, [c] followed by '*', '+' or '?' is rejected; so is "a**". *)
Theorem parse_repetition_operator_invalid :
  (forall (c : ascii) (rest : string),
      parseAlternation (String c (String "*" rest)) 0 = InvalidPattern /\
      parseAlternation (String c (String "+" rest)) 0 = InvalidPattern /\
      parseAlternation (String c (String "?" rest)) 0 = InvalidPattern) /\
  parseAlternation "a**" 0 = InvalidPattern.
Proof.
  split; [|reflexivity].
  intros c rest.
  assert (H : forall op, parseAtomicPattern (String c (String op rest)) 1
                         = InvalidPattern ->
              negb (Ascii.eqb op NUL) && negb (Ascii.eqb op "|")
                && negb (Ascii.eqb op ")") = true ->
              parseAlternation (String c (String op rest)) 0 = InvalidPattern).
  { intros op Hop Hcond.
    unfold parseAlternation, parseConcatenation, parseRepetition.
    assert (E : parseAtomicPattern (String c (String op rest)) 0 = InvalidPattern
                \/ exists p, parseAtomicPattern (String c (String op rest)) 0
                             = Ok (p, 1)).
    { unfold parseAtomicPattern.
      change (char_at (String c (String op rest)) 0) with (@Ok ascii c).
      cbn [bind].
      repeat match goal with
             | |- context [if ?b then _ else _] => destruct b
             end; eauto. }
    destruct E as [-> | [p ->]]; cbn [bind]; [reflexivity|].
    unfold parse_fuel. cbn [while_loop snd fst String.length].
    change (char_at (String c (String op rest)) 1) with (@Ok ascii op).
    cbn [bind]. rewrite Hcond, Hop. reflexivity. }
  repeat split; apply H; reflexivity.
Qed.

(** C8. [main] never checks that [parseAlternation] consumed the whole
    pattern, and the parser loops stop at ')'.  A pattern that starts with
    "a)" is accepted as [Symbol a], whatever follows, and lines are matched
    against that tree (here with an [after] of 8 cells); "[abc" leaves
    through [invalidPattern()] before any line is read. *)
Theorem parse_accepts_trailing_input :
  (forall rest : string,
      parseAlternation (String "a" (String ")" rest)) 0
      = Ok (makeSymbolPattern "a", 1)) /\
  main 8 "a)" [ln "a"; ln "b"] = Ok [ln "a"] /\
  parseAlternation "[abc" 0 = InvalidPattern /\
  main 8 "[abc" [ln "a"; ln "b"] = InvalidPattern.
Proof. repeat split. Qed.

(** ** Driver *)

Lemma strlen_nonneg (s : string) : 0 <= strlen s.
Proof.
  induction s as [|c s IH]; cbn [strlen]; [lia|].
  destruct (Ascii.eqb c NUL); lia.
Qed.

Lemma set_nth_app (l1 l2 : marks) (c : cell) (b : bool) :
  set_nth (l1 ++ c :: l2) (List.length l1) b = Ok (l1 ++ Some b :: l2).
Proof.
  induction l1 as [|d l1 IH]; simpl; [reflexivity|]. now rewrite IH.
Qed.

Lemma rd_app (l1 l2 : marks) (b : bool) :
  rd (l1 ++ Some b :: l2) (Z.of_nat (List.length l1)) = Ok b.
Proof.
  apply rd_some. rewrite nth_error_app2 by lia.
  now rewrite Nat.sub_diag.
Qed.

Lemma isMatch_from_unmarked (s : string) :
  forall pre : marks,
    isMatch_from s (Z.of_nat (List.length pre))
      (pre ++ repeat (Some false) (Z.to_nat (strlen s)) ++ [Some true])
    = Ok false.
Proof.
  induction s as [|c s IH]; intros pre; cbn [isMatch_from strlen];
    [reflexivity|].
  destruct (Ascii.eqb c NUL); [reflexivity|].
  pose proof (strlen_nonneg s) as Hs.
  replace (Z.to_nat (1 + strlen s)) with (S (Z.to_nat (strlen s))) by lia.
  cbn [repeat app]. rewrite rd_app. cbn [bind].
  specialize (IH (pre ++ [Some false])).
  rewrite length_app, <- app_assoc in IH. cbn [List.length app] in IH.
  replace (Z.of_nat (List.length pre + 1)) with (Z.of_nat (List.length pre) + 1)
    in IH by lia.
  exact IH.
Qed.

(** C6. [isMatch] walks the characters of [str] and tests [marks[i]] for
    each of them: the cell after the last character is never tested.  A mark
    at the final position alone is therefore reported as no match, for every
    line; in [main] (with an [after] of 8 cells), the last line of an input
    that does not end in a newline is not printed although the pattern
    matches at its end, while the same line followed by a newline is. *)
Theorem isMatch_skips_final_position :
  (forall str : string,
      isMatch str (repeat (Some false) (Z.to_nat (strlen str)) ++ [Some true])
      = Ok false) /\
  isMatch "a" [Some false; Some true] = Ok false /\
  main 8 "a" ["a"] = Ok [] /\
  main 8 "a" [ln "a"] = Ok [ln "a"].
Proof.
  split; [|repeat split].
  intros str. exact (isMatch_from_unmarked str []).
Qed.

Lemma fill_loop (k : nat) :
  forall i0 : nat,
    for_loop k (Z.of_nat i0) (fun i before => wr before i true)
      (repeat (Some true) i0 ++ repeat None (S k))
    = Ok (repeat (Some true) (i0 + k) ++ [None]).
Proof.
  induction k as [|k IH]; intros i0; cbn [for_loop].
  - now rewrite Nat.add_0_r.
  - unfold wr. destruct (Z.ltb_spec (Z.of_nat i0) 0) as [L|L]; [lia|].
    rewrite Nat2Z.id. cbn [repeat].
    rewrite <- (repeat_length (Some true) i0) at 2.
    rewrite set_nth_app. cbn [bind].
    specialize (IH (S i0)).
    replace (Z.of_nat i0 + 1) with (Z.of_nat (S i0)) by lia.
    cbn [repeat] in IH. rewrite repeat_cons in IH.
    rewrite <- app_assoc in IH. cbn [app] in IH.
    replace (i0 + S k)%nat with (S i0 + k)%nat by lia. exact IH.
Qed.

(** C7. The loop of [main] that fills [before] runs over [i < len] while the
    array has [len + 1] cells: for every length the last cell is never
    written.  [len] is [strlen] of the line as [getline] stored it, newline
    included, and that is the length handed to the match routine: for the
    line "a" without a newline the array passed is one marked cell and one
    unwritten cell; for "a" with its newline the newline is character 1 of a
    line of length 2. *)
Theorem main_before_last_cell_unwritten :
  (forall n : nat,
      main_before (Z.of_nat n) = Ok (repeat (Some true) n ++ [None])) /\
  main_before (int_of (strlen "a")) = Ok [Some true; None] /\
  int_of (strlen (ln "a")) = 2 /\
  main_before (int_of (strlen (ln "a"))) = Ok [Some true; Some true; None].
Proof.
  split; [|repeat split].
  intros n. unfold main_before, fresh.
  replace (Z.to_nat (Z.of_nat n + 1)) with (S n) by lia.
  rewrite Nat2Z.id. exact (fill_loop n 0).
Qed.

(** ** The parser loops end within their bound *)

Lemma while_loop_total {S : Type} (I : S -> Prop) (mu : S -> nat)
  (cond : S -> res bool) (body : S -> res S) :
  (forall s, I s -> exists b, cond s = Ok b) ->
  (forall s, I s -> cond s = Ok true ->
             body s = InvalidPattern \/
             exists s', body s = Ok s' /\ I s' /\ (mu s' < mu s)%nat) ->
  forall (fuel : nat) (s : S),
    I s -> (mu s < fuel)%nat ->
    while_loop fuel cond body s = InvalidPattern \/
    exists s', while_loop fuel cond body s = Ok s' /\ I s' /\
               (mu s' <= mu s)%nat /\ cond s' = Ok false.
Proof.
  intros Hc Hb. induction fuel as [|fuel IH]; intros s Hs Hmu; [lia|].
  cbn [while_loop]. destruct (Hc s Hs) as ([|] & Ec); rewrite Ec; cbn [bind].
  - destruct (Hb s Hs Ec) as [-> | (s1 & -> & Hs1 & Hlt)]; cbn [bind]; [now left|].
    destruct (IH s1 Hs1) as [-> | (s' & -> & Hs' & Hle & Hf)]; [lia|now left|].
    right. exists s'. repeat split; auto. lia.
  - right. exists s. repeat split; auto.
Qed.

Lemma get_some_lt (str : string) (n : nat) (c : ascii) :
  String.get n str = Some c -> (n < String.length str)%nat.
Proof.
  revert n; induction str as [|d s IH]; intros n H; simpl in H; [discriminate|].
  destruct n as [|k]; simpl; [lia|]. apply IH in H. lia.
Qed.

Lemma char_at_range (str : string) (pos : Z) :
  0 <= pos <= Z.of_nat (String.length str) ->
  exists c, char_at str pos = Ok c /\
            (c <> NUL -> pos < Z.of_nat (String.length str)).
Proof.
  intros H. unfold char_at.
  destruct (Z.ltb_spec pos 0) as [L|L]; [lia|].
  destruct (String.get (Z.to_nat pos) str) as [c|] eqn:E.
  - exists c. split; [reflexivity|]. intros _. apply get_some_lt in E. lia.
  - destruct (Nat.eqb_spec (Z.to_nat pos) (String.length str)) as [Q|Q].
    + exists NUL. split; [reflexivity|]. congruence.
    + exfalso. destruct (get_lt str (Z.to_nat pos)) as (c & Hc); [lia|].
      congruence.
Qed.

Lemma parseAtomicPattern_total (str : string) (pos : Z) :
  0 <= pos <= Z.of_nat (String.length str) ->
  parseAtomicPattern str pos = InvalidPattern \/
  exists p, parseAtomicPattern str pos = Ok (p, pos + 1) /\
            pos < Z.of_nat (String.length str).
Proof.
  intros H. unfold parseAtomicPattern.
  destruct (char_at_range str pos H) as (c & -> & Hc). cbn [bind].
  destruct (ordinary c) eqn:Eo.
  { right. eexists; split; [reflexivity|]. apply Hc. intros ->. discriminate Eo. }
  destruct (Ascii.eqb_spec c ".") as [->|_].
  { right. eexists; split; [reflexivity|]. apply Hc. discriminate. }
  destruct (Ascii.eqb_spec c "^") as [->|_].
  { right. eexists; split; [reflexivity|]. apply Hc. discriminate. }
  destruct (Ascii.eqb_spec c "$") as [->|_].
  { right. eexists; split; [reflexivity|]. apply Hc. discriminate. }
  now left.
Qed.

Lemma parseConcatenation_total (str : string) (pos : Z) :
  0 <= pos <= Z.of_nat (String.length str) ->
  parseConcatenation str pos = InvalidPattern \/
  exists p pos', parseConcatenation str pos = Ok (p, pos') /\
                 pos < pos' <= Z.of_nat (String.length str).
Proof.
  intros H. unfold parseConcatenation, parseRepetition.
  destruct (parseAtomicPattern_total str pos H) as [-> | (p & -> & Hp)];
    cbn [bind]; [now left|].
  set (n := Z.of_nat (String.length str)) in *.
  match goal with
  | |- while_loop ?ff ?cc ?bb ?ss = _ \/ _ =>
      destruct (while_loop_total
                  (fun st : Pattern * Z => pos < snd st <= n)
                  (fun st => Z.to_nat (n - snd st)) cc bb) with (fuel := ff) (s := ss)
        as [-> | ([q pos'] & -> & Hq & _)]
  end.
  - intros [q i] Hi. cbn [snd] in *.
    destruct (char_at_range str i) as (c & -> & _); [fold n; lia|].
    cbn [bind]. eauto.
  - intros [q i] Hi _. cbn [snd fst] in *.
    destruct (parseAtomicPattern_total str i) as [-> | (r & -> & Hr)];
      [fold n; lia | now left |].
    right. cbn [bind fst snd]. eexists; split; [reflexivity|].
    cbn [snd]. fold n in Hr. split; lia.
  - cbn [snd]. lia.
  - unfold parse_fuel. cbn [snd]. lia.
  - now left.
  - right. exists q, pos'. split; [reflexivity|]. exact Hq.
Qed.

(** X18. [parseAlternation] on a whole pattern either leaves through
    [invalidPattern()] or returns a tree and a cursor inside the pattern:
    the bound on its loops is never reached and no character is read beyond
    the terminating NUL. *)
Theorem parseAlternation_fuel (str : string) :
  parseAlternation str 0 = InvalidPattern \/
  exists p pos, parseAlternation str 0 = Ok (p, pos) /\
                0 < pos <= Z.of_nat (String.length str).
Proof.
  unfold parseAlternation.
  set (n := Z.of_nat (String.length str)).
  destruct (parseConcatenation_total str 0) as [-> | (p & pos & -> & Hp)];
    cbn [bind]; [lia | now left |].
  fold n in Hp.
  match goal with
  | |- while_loop ?ff ?cc ?bb ?ss = _ \/ _ =>
      destruct (while_loop_total
                  (fun st : Pattern * Z => 0 < snd st <= n)
                  (fun st => Z.to_nat (n - snd st)) cc bb) with (fuel := ff) (s := ss)
        as [-> | ([q pos'] & -> & Hq & _)]
  end.
  - intros [q i] Hi. cbn [snd] in *.
    destruct (char_at_range str i) as (c & -> & _); [fold n; lia|].
    cbn [bind]. eauto.
  - intros [q i] Hi Hcond. cbn [snd fst] in *.
    destruct (char_at_range str i) as (c & Ec & Hc); [fold n; lia|].
    rewrite Ec in Hcond. cbn [bind] in Hcond.
    assert (Hi' : i < n).
    { apply Hc. intros ->. discriminate Hcond. }
    destruct (parseConcatenation_total str (i + 1)) as [-> | (r & j & -> & Hr)];
      [fold n; lia | now left |].
    right. cbn [bind fst snd]. eexists; split; [reflexivity|].
    cbn [snd]. fold n in Hr. split; lia.
  - cbn [snd]. lia.
  - unfold parse_fuel. cbn [snd]. lia.
  - now left.
  - right. exists q, pos'. split; [reflexivity|]. exact Hq.
Qed.

(** * Further properties of pattern.c *)

(** ** What every match routine keeps *)

Lemma bind_Ok {A B : Type} (m : res A) (k : A -> res B) (b : B) :
  bind m k = Ok b -> exists a, m = Ok a /\ k a = Ok b.
Proof. destruct m; simpl; intros H; try discriminate. eauto. Qed.

Ltac inv_bind H :=
  let x := fresh "x" in
  let E := fresh "E" in
  apply bind_Ok in H; destruct H as (x & E & H).









(** ** Symbols, dots and concatenations *)

Lemma rd_written (a : marks) (n i : nat) :
  written_upto a n -> (i < n)%nat -> rd a (Z.of_nat i) = Ok (cell_val a i).
Proof.
  intros W Hi. destruct (W i Hi) as (b & Hb).
  unfold cell_val. rewrite Hb. now apply rd_some.
Qed.

Lemma written_map_Some (l : list bool) : written_upto (map Some l) (List.length l).
Proof.
  intros i Hi. exists (nth i l false).
  apply nth_error_map_Some. now apply nth_error_nth'.
Qed.

Lemma cell_val_map (l : list bool) (i : nat) :
  cell_val (map Some l) i = nth i l false.
Proof.
  unfold cell_val. rewrite nth_error_map.
  destruct (nth_error l i) as [b|] eqn:E; cbn [option_map].
  - symmetry. now apply nth_error_nth.
  - symmetry. apply nth_overflow. now apply nth_error_None.
Qed.

Lemma written_upto_le (a : marks) (n m : nat) :
  written_upto a n -> (m <= n)%nat -> written_upto a m.
Proof. intros W H i Hi. apply W. lia. Qed.

Lemma leaf_marks (t : ascii -> bool) (line : string) (before after : marks)
  (n : nat) :
  (n <= String.length line)%nat ->
  written_upto before n ->
  (n < List.length after)%nat ->
  exists a',
    (a0 <- wr after 0 false ;;
     for_loop (Z.to_nat (Z.of_nat n)) 0
       (fun i after =>
          b <- rd before i ;;
          v <- (if b then c <- char_at line i ;; Ok (t c) else Ok false) ;;
          wr after (i + 1) v) a0) = Ok a' /\
    List.length a' = List.length after /\
    nth_error a' 0 = Some (Some false) /\
    (forall i, (i < n)%nat ->
               nth_error a' (S i)
               = Some (Some (cell_val before i && char_test t line i))) /\
    (forall m, (n < m)%nat -> nth_error a' m = nth_error after m).
Proof.
  intros Hn W Ha.
  set (h := fun i => cell_val before i && char_test t line i).
  set (g := fun i : Z =>
              b <- rd before i ;;
              if b then ch <- char_at line i ;; Ok (t ch) else Ok false).
  destruct (wr_ok after 0 false) as (a0 & E0 & L0 & G0 & F0); [lia|].
  change (Z.of_nat 0) with 0 in E0. rewrite E0; cbn [bind].
  rewrite Nat2Z.id.
  rewrite (for_loop_ext _ (fun i after => v <- g i ;; wr after (i + 1) v))
    by (intros i s; unfold g; now rewrite bind_assoc).
  destruct (for_loop_shift g h n 0 a0) as (a' & E & L & G & F).
  - lia.
  - intros j Hj. unfold g, h.
    rewrite (rd_written before n j W) by lia. cbn [bind].
    destruct (cell_val before j); [|reflexivity].
    destruct (get_lt line j) as (d & Hd); [lia|].
    rewrite (char_at_get _ _ _ Hd). unfold char_test. now rewrite Hd.
  - change (Z.of_nat 0) with 0 in E. exists a'. split; [exact E|].
    split; [congruence|]. split; [|split].
    + rewrite F by lia. exact G0.
    + intros i Hi. apply G. lia.
    + intros m Hm. rewrite F by lia. apply F0. lia.
Qed.

(** X2. For a line of length n, a position set [before] of n+1 marks and an
    [after] of n+1 cells, the match routine of a dot returns, fills every
    cell, clears position 0 and marks position i+1 exactly when position i
    is marked in [before] and character i of the line is not NUL. *)
Theorem matchDotPattern_marks
  (sym : ascii) (line : string) (before : list bool) (after : marks) :
  List.length before = S (String.length line) ->
  List.length after = S (String.length line) ->
  exists result : list bool,
    call_match (makeDotPattern sym) (Z.of_nat (String.length line)) line
      (map Some before) after = Ok (map Some result) /\
    List.length result = S (String.length line) /\
    nth_error result 0 = Some false /\
    forall i, (i < String.length line)%nat ->
      nth_error result (S i)
      = Some (nth i before false
              && char_test (fun d => negb (Ascii.eqb d NUL)) line i).
Proof.
  intros Hb Ha.
  cbn [call_match makeDotPattern pattern_match matchDotPattern].
  destruct (leaf_marks (fun d => negb (Ascii.eqb d NUL)) line
              (map Some before) after (String.length line))
    as (a' & E & L & G0 & G & _).
  - lia.
  - apply written_upto_le with (n := List.length before);
      [apply written_map_Some | lia].
  - lia.
  - cbv beta in E. unfold matchDotPattern. rewrite E.
    destruct (all_written a') as (l & ->).
    { intros i Hi. destruct i as [|j]; [eauto|].
      eexists. apply G. lia. }
    exists l. rewrite length_map in L. repeat split.
    + lia.
    + now apply nth_error_map_Some.
    + intros i Hi. apply nth_error_map_Some.
      rewrite <- cell_val_map. apply G. lia.
Qed.

Lemma matchDotPattern_marks_witness :
  exists result : list bool,
    call_match (makeDotPattern ".") 2 "ab"
      (map Some [true; false; true]) (fresh 3) = Ok (map Some result) /\
    List.length result = 3%nat /\
    nth_error result 0 = Some false /\
    forall i, (i < 2)%nat ->
      nth_error result (S i)
      = Some (nth i [true; false; true] false
              && char_test (fun d => negb (Ascii.eqb d NUL)) "ab" i).
Proof.
  apply (matchDotPattern_marks "." "ab" [true; false; true] (fresh 3));
    reflexivity.
Defined.

Lemma cell_val_marked (a : marks) (i : nat) : cell_val a i = true <-> marked a i.
Proof.
  unfold cell_val, marked.
  destruct (nth_error a i) as [[[|]|]|]; split; intros H;
    try discriminate H; reflexivity.
Qed.

Lemma leaf_reach (t : ascii -> bool) (line : string) (before after : marks)
  (n : nat) :
  (n <= String.length line)%nat ->
  written_upto before n ->
  (n < List.length after)%nat ->
  exists a',
    (a0 <- wr after 0 false ;;
     for_loop (Z.to_nat (Z.of_nat n)) 0
       (fun i after =>
          b <- rd before i ;;
          v <- (if b then c <- char_at line i ;; Ok (t c) else Ok false) ;;
          wr after (i + 1) v) a0) = Ok a' /\
    List.length a' = List.length after /\
    written_upto a' (S n) /\
    (forall j, (j <= n)%nat ->
       (marked a' j <->
        exists i, (i < n)%nat /\ marked before i /\ j = S i /\
                  char_test t line i = true)) /\
    (forall m, (n < m)%nat -> nth_error a' m = nth_error after m).
Proof.
  intros Hn W Ha.
  destruct (leaf_marks t line before after n Hn W Ha)
    as (a' & E & L & G0 & G & F).
  exists a'. split; [exact E|]. split; [exact L|]. split; [|split; [|exact F]].
  - intros [|i] Hi; [eauto|]. eexists. apply G. lia.
  - intros j Hj. split.
    + destruct j as [|i]; intros Hm; unfold marked in Hm.
      * rewrite G0 in Hm. discriminate.
      * rewrite G in Hm by lia. injection Hm as H1.
        apply andb_true_iff in H1. destruct H1 as [H1 H2].
        exists i. split; [lia|]. split; [now apply cell_val_marked|].
        split; [reflexivity | exact H2].
    + intros (i & Hi & Hm & -> & Ht). unfold marked. rewrite G by lia.
      apply cell_val_marked in Hm. now rewrite Hm, Ht.
Qed.

Lemma reach_lt (p : Pattern) (line : string) :
  seq_pattern p = true -> forall i j, reach p line i j -> (i < j)%nat.
Proof.
  induction p as [m d c | m d p1 IH1 p2 IH2 | m d p IH]; intros Hs i j H;
    destruct m; cbn [seq_pattern] in Hs; try discriminate; cbn [reach] in H.
  - destruct H; lia.
  - destruct H; lia.
  - apply andb_true_iff in Hs. destruct Hs as [H1 H2].
    destruct H as (k & Hk1 & Hk2).
    apply (IH1 H1) in Hk1. apply (IH2 H2) in Hk2. lia.
Qed.

Lemma seq_match_reach_gen (p : Pattern) :
  seq_pattern p = true ->
  forall (line : string) (n : nat) (before after : marks),
    (n <= String.length line)%nat ->
    Z.of_nat n < INT_MAX ->
    written_upto before n ->
    (n < List.length after)%nat ->
    exists after',
      call_match p (Z.of_nat n) line before after = Ok after' /\
      List.length after' = List.length after /\
      written_upto after' (S n) /\
      (forall j, (j <= n)%nat ->
         (marked after' j <->
          exists i, (i < n)%nat /\ marked before i /\ reach p line i j)) /\
      (forall m, (n < m)%nat -> nth_error after' m = nth_error after m).
Proof.
  induction p as [m d c | m d p1 IH1 p2 IH2 | m d p IH];
    intros Hs line n before after Hn Hmax W Ha;
    destruct m; cbn [seq_pattern] in Hs; try discriminate.
  - (* symbol *)
    cbn [call_match pattern_match matchSymbolPattern].
    destruct (leaf_reach (fun d => Ascii.eqb d c) line before after n Hn W Ha)
      as (a' & E & L & Wa & G & F).
    cbv beta in E. rewrite E. exists a'.
    split; [reflexivity|]. split; [exact L|]. split; [exact Wa|].
    split; [|exact F]. intros j Hj. split.
    + intros H. apply (G j Hj) in H. destruct H as (i & Hi & Hm & -> & Ht).
      exists i. repeat split; auto. unfold char_test in Ht.
      destruct (String.get i line) as [e|]; [|discriminate].
      apply Ascii.eqb_eq in Ht. now subst.
    + intros (i & Hi & Hm & Hr). cbn [reach] in Hr. destruct Hr as [-> Hg].
      apply G; auto. exists i. repeat split; auto.
      unfold char_test. rewrite Hg. apply Ascii.eqb_refl.
  - (* dot *)
    cbn [call_match pattern_match]. unfold matchDotPattern.
    destruct (leaf_reach (fun d => negb (Ascii.eqb d NUL)) line before after n
                Hn W Ha) as (a' & E & L & Wa & G & F).
    cbv beta in E. rewrite E. exists a'.
    split; [reflexivity|]. split; [exact L|]. split; [exact Wa|].
    split; [|exact F]. intros j Hj. split.
    + intros H. apply (G j Hj) in H. destruct H as (i & Hi & Hm & -> & Ht).
      exists i. repeat split; auto. unfold char_test in Ht.
      destruct (String.get i line) as [e|]; [|discriminate].
      exists e. split; [reflexivity|]. intros ->. discriminate Ht.
    + intros (i & Hi & Hm & Hr). cbn [reach] in Hr.
      destruct Hr as [-> (e & Hg & Hne)].
      apply G; auto. exists i. repeat split; auto.
      unfold char_test. rewrite Hg.
      destruct (Ascii.eqb_spec e NUL); [contradiction | reflexivity].
  - (* concatenation *)
    apply andb_true_iff in Hs. destruct Hs as [H1 H2].
    cbn [call_match pattern_match matchConcatenationPattern].
    unfold vla.
    destruct (Z.ltb_spec 0 (Z.of_nat n + 1)) as [_|]; [|lia].
    destruct (Z.leb_spec (Z.of_nat n + 1) INT_MAX) as [_|]; [|lia].
    cbn [andb bind].
    destruct (IH1 H1 line n before (fresh (Z.of_nat n + 1)) Hn Hmax W)
      as (mid & E1 & L1 & W1 & G1 & _).
    { unfold fresh. rewrite repeat_length. lia. }
    fold call_match. rewrite E1. cbn [bind].
    destruct (IH2 H2 line n mid after Hn Hmax) as (a' & E2 & L2 & W2 & G2 & F2);
      auto.
    { apply written_upto_le with (n := S n); auto. }
    rewrite E2. exists a'.
    split; [reflexivity|]. split; [exact L2|]. split; [exact W2|].
    split; [|exact F2]. intros j Hj. split.
    + intros H. apply (G2 j Hj) in H. destruct H as (k & Hk & Hm & Hr).
      apply G1 in Hm; [|lia]. destruct Hm as (i & Hi & Hb & Hr1).
      exists i. repeat split; auto. cbn [reach]. eauto.
    + intros (i & Hi & Hb & Hr). cbn [reach] in Hr.
      destruct Hr as (k & Hr1 & Hr2).
      pose proof (reach_lt p2 line H2 k j Hr2) as Hlt.
      apply G2; auto. exists k. repeat split; auto; [lia|].
      apply G1; [lia|]. eauto.
Qed.

(** X3. For a tree of symbols, dots and concatenations, the first [n]
    characters of a line, a [before] whose first [n] cells are written and
    an [after] of more than [n] cells, the match routine returns, writes the
    cells 0..n of [after] and leaves the others alone; position [j] is marked
    exactly when the pattern matches the characters between some marked
    position [i] of [before] and [j]. *)
Theorem seq_match_reach (p : Pattern) :
  seq_pattern p = true ->
  forall (line : string) (n : nat) (before after : marks),
    (n <= String.length line)%nat ->
    Z.of_nat n < INT_MAX ->
    written_upto before n ->
    (n < List.length after)%nat ->
    exists after',
      call_match p (Z.of_nat n) line before after = Ok after' /\
      List.length after' = List.length after /\
      written_upto after' (S n) /\
      (forall j, (j <= n)%nat ->
         (marked after' j <->
          exists i, (i < n)%nat /\ marked before i /\ reach p line i j)) /\
      (forall m, (n < m)%nat -> nth_error after' m = nth_error after m).
Proof. exact (@seq_match_reach_gen p). Qed.

Lemma seq_match_reach_witness :
  exists after',
    call_match (makeConcatenationPattern (makeSymbolPattern "a") (makeDotPattern "."))
      (Z.of_nat 3) "abc" [Some true; Some true; Some true; None] (fresh 5)
    = Ok after' /\
    List.length after' = List.length (fresh 5) /\
    written_upto after' 4 /\
    (forall j, (j <= 3)%nat ->
       (marked after' j <->
        exists i, (i < 3)%nat /\
                  marked [Some true; Some true; Some true; None] i /\
                  reach (makeConcatenationPattern (makeSymbolPattern "a")
                           (makeDotPattern ".")) "abc" i j)) /\
    (forall m, (3 < m)%nat -> nth_error after' m = nth_error (fresh 5) m).
Proof.
  apply (seq_match_reach
           (makeConcatenationPattern (makeSymbolPattern "a") (makeDotPattern "."))
           eq_refl "abc" 3 [Some true; Some true; Some true; None] (fresh 5)).
  - simpl; lia.
  - reflexivity.
  - intros [|[|[|i]]] Hi; simpl; eauto. lia.
  - simpl; lia.
Defined.

(** ** isMatch *)

Lemma strlen_le_length (s : string) : (Z.to_nat (strlen s) <= String.length s)%nat.
Proof.
  induction s as [|c s IH]; cbn [strlen String.length]; [lia|].
  pose proof (strlen_nonneg s). destruct (Ascii.eqb c NUL); lia.
Qed.

Lemma isMatch_from_scan (s : string) :
  forall (i : nat) (a : marks),
    written_upto a (i + Z.to_nat (strlen s)) ->
    exists b, isMatch_from s (Z.of_nat i) a = Ok b /\
              (b = true <->
               exists j, (i <= j < i + Z.to_nat (strlen s))%nat /\ marked a j).
Proof.
  induction s as [|c s IH]; intros i a W; cbn [isMatch_from strlen] in *.
  - exists false. split; [reflexivity|]. split; [discriminate|].
    intros (j & Hj & _). simpl in Hj. lia.
  - destruct (Ascii.eqb c NUL).
    + exists false. split; [reflexivity|]. split; [discriminate|].
      intros (j & Hj & _). simpl in Hj. lia.
    + pose proof (strlen_nonneg s) as Hs.
      replace (Z.to_nat (1 + strlen s)) with (S (Z.to_nat (strlen s))) in * by lia.
      rewrite (rd_written a _ i W) by lia. cbn [bind].
      destruct (cell_val a i) eqn:Ev.
      * exists true. split; [reflexivity|]. split; [|reflexivity].
        intros _. exists i. split; [lia|]. now apply cell_val_marked.
      * destruct (IH (S i) a) as (b & Eb & Hb).
        { intros j Hj. apply W. lia. }
        replace (Z.of_nat i + 1) with (Z.of_nat (S i)) by lia.
        exists b. split; [exact Eb|]. rewrite Hb. split.
        -- intros (j & Hj & Hm). exists j. split; [lia | exact Hm].
        -- intros (j & Hj & Hm). exists j. split; [|exact Hm].
           destruct (Nat.eq_dec j i) as [->|]; [|lia].
           apply cell_val_marked in Hm. congruence.
Qed.

Lemma isMatch_scan_gen (str : string) (a : marks) :
  written_upto a (Z.to_nat (strlen str)) ->
  exists b, isMatch str a = Ok b /\
            (b = true <->
             exists j, (j < Z.to_nat (strlen str))%nat /\ marked a j).
Proof.
  intros W. destruct (isMatch_from_scan str 0 a W) as (b & E & H).
  exists b. split; [exact E|]. rewrite H. split.
  - intros (j & Hj & Hm). exists j. split; [lia | exact Hm].
  - intros (j & Hj & Hm). exists j. split; [lia | exact Hm].
Qed.

(** X4. When the cells of [marks] that face the characters of [str] are
    written, [isMatch] returns, and it returns true exactly when one of
    these [strlen(str)] cells holds a mark. *)
Theorem isMatch_scan (str : string) (a : marks) :
  written_upto a (Z.to_nat (strlen str)) ->
  exists b, isMatch str a = Ok b /\
            (b = true <->
             exists j, (j < Z.to_nat (strlen str))%nat /\ marked a j).
Proof. exact (@isMatch_scan_gen str a). Qed.

Lemma isMatch_scan_witness :
  exists b, isMatch "ab" [Some false; Some true; None] = Ok b /\
            (b = true <->
             exists j, (j < Z.to_nat (strlen "ab"))%nat /\
                       marked [Some false; Some true; None] j).
Proof.
  apply (isMatch_scan "ab" [Some false; Some true; None]).
  intros [|[|i]] Hi; simpl; eauto. simpl in Hi. lia.
Defined.

(** ** Alternations at the top of the tree *)

Lemma seq_top (p : Pattern) : seq_pattern p = true -> top_pattern p = true.
Proof.
  destruct p as [m d c | m d p1 p2 | m d p]; destruct m; cbn;
    intros H; try discriminate; exact H.
Qed.

Lemma top_cases (p : Pattern) :
  top_pattern p = true ->
  seq_pattern p = true \/
  exists d p1 p2, p = BinaryPattern MatchAlternation d p1 p2 /\
                  top_pattern p1 = true /\ top_pattern p2 = true.
Proof.
  destruct p as [m d c | m d p1 p2 | m d p]; destruct m; cbn;
    intros H; try discriminate; try (now left).
  right. apply andb_true_iff in H. destruct H. eauto 6.
Qed.

Lemma reach_lt_top (p : Pattern) (line : string) :
  top_pattern p = true -> forall i j, reach p line i j -> (i < j)%nat.
Proof.
  induction p as [m d c | m d p1 IH1 p2 IH2 | m d p IH]; intros Hs i j H;
    destruct (top_cases _ Hs) as [Hq | (d' & q1 & q2 & E & H1 & H2)];
    try (now apply (reach_lt _ line Hq)); try discriminate.
  inversion E; subst. cbn [reach] in H. destruct H; eauto.
Qed.

Lemma top_match_verdict_gen (p : Pattern) :
  top_pattern p = true ->
  forall (line : string) (n : nat) (before after : marks),
    n = Z.to_nat (strlen line) ->
    Z.of_nat n < INT_MAX ->
    written_upto before n ->
    (n < List.length after)%nat ->
    exists after' m,
      call_match p (Z.of_nat n) line before after = Ok after' /\
      List.length after' = List.length after /\
      written_upto after' (S n) /\
      isMatch line after' = Ok m /\
      (m = true <->
       exists i j, (i < n)%nat /\ (j < n)%nat /\ marked before i /\
                   reach p line i j) /\
      (forall j, (j <= n)%nat -> marked after' j ->
                 exists i, (i < n)%nat /\ marked before i /\ reach p line i j) /\
      (forall k, (n < k)%nat -> nth_error after' k = nth_error after k).
Proof.
  induction p as [m0 d c | m0 d p1 IH1 p2 IH2 | m0 d p IH];
    intros Hs line n before after Hn Hmax W Ha;
    destruct (top_cases _ Hs) as [Hq | (d' & q1 & q2 & E & H1 & H2)];
    try discriminate.
  1, 2:
    (destruct (seq_match_reach_gen _ Hq line n before after) as (a' & Ea & L & Wa & G & F);
     auto; [subst n; apply strlen_le_length|];
     destruct (isMatch_scan_gen line a') as (b & Eb & Hb);
     [rewrite <- Hn; apply written_upto_le with (n := S n); auto|];
     exists a', b; split; [exact Ea|]; split; [exact L|]; split; [exact Wa|];
     split; [exact Eb|]; split; [|split; [|exact F]];
     [ rewrite Hb, <- Hn; split;
       [ intros (j & Hj & Hm); apply G in Hm; [|lia];
         destruct Hm as (i & Hi & Hbi & Hr); exists i, j; auto
       | intros (i & j & Hi & Hj & Hbi & Hr); exists j; split; [exact Hj|];
         apply G; [lia|]; eauto ]
     | intros j Hj Hm; apply G in Hm; auto ]).
  inversion E; subst m0 d' q1 q2. clear E.
  cbn [call_match pattern_match matchAlternationPattern]. fold call_match.
  destruct (IH1 H1 line n before after Hn Hmax W Ha)
    as (a1 & m1 & E1 & L1 & W1 & M1 & V1 & S1 & F1).
  rewrite E1. cbn [bind]. rewrite M1. cbn [bind].
  destruct m1; cbn [negb].
  - exists a1, true. split; [reflexivity|]. split; [exact L1|].
    split; [exact W1|]. split; [exact M1|]. split; [|split; [|exact F1]].
    + split; [|reflexivity]. intros _.
      destruct (proj1 V1 eq_refl) as (i & j & Hi & Hj & Hb & Hr).
      exists i, j. cbn [reach]. auto.
    + intros j Hj Hm. destruct (S1 j Hj Hm) as (i & Hi & Hb & Hr).
      exists i. cbn [reach]. auto.
  - destruct (IH2 H2 line n before a1 Hn Hmax W)
      as (a2 & m2 & E2 & L2 & W2 & M2 & V2 & S2 & F2); [lia|].
    rewrite E2. exists a2, m2. split; [reflexivity|]. split; [congruence|].
    split; [exact W2|]. split; [exact M2|]. split; [|split].
    + rewrite V2. split.
      * intros (i & j & Hi & Hj & Hb & Hr). exists i, j. cbn [reach]. auto.
      * intros (i & j & Hi & Hj & Hb & Hr). cbn [reach] in Hr.
        destruct Hr as [Hr|Hr]; [|eauto 6].
        assert (false = true) by (apply V1; eauto 6). discriminate.
    + intros j Hj Hm. destruct (S2 j Hj Hm) as (i & Hi & Hb & Hr).
      exists i. cbn [reach]. auto.
    + intros k Hk. rewrite F2 by exact Hk. now apply F1.
Qed.

(** X5. For a tree made of alternations over trees of symbols, dots and
    concatenations, applied to a whole line ([len] its [strlen]), the match
    routine returns and writes the cells 0..len of [after].  Every mark it
    leaves is the end of a match of the pattern that starts at a marked
    position of [before], and [isMatch] on the result is true exactly when
    the pattern matches between a marked position of [before] and a
    position before the last character's end: the verdict is that of the
    union of the branches although the marks are not. *)
Theorem top_match_verdict (p : Pattern) :
  top_pattern p = true ->
  forall (line : string) (n : nat) (before after : marks),
    n = Z.to_nat (strlen line) ->
    Z.of_nat n < INT_MAX ->
    written_upto before n ->
    (n < List.length after)%nat ->
    exists after' m,
      call_match p (Z.of_nat n) line before after = Ok after' /\
      List.length after' = List.length after /\
      written_upto after' (S n) /\
      isMatch line after' = Ok m /\
      (m = true <->
       exists i j, (i < n)%nat /\ (j < n)%nat /\ marked before i /\
                   reach p line i j) /\
      (forall j, (j <= n)%nat -> marked after' j ->
                 exists i, (i < n)%nat /\ marked before i /\ reach p line i j) /\
      (forall k, (n < k)%nat -> nth_error after' k = nth_error after k).
Proof. exact (@top_match_verdict_gen p). Qed.

Lemma top_match_verdict_witness :
  exists after' m,
    call_match (makeAlternationPattern (makeSymbolPattern "a") (makeSymbolPattern "b"))
      (Z.of_nat 2) "ab" [Some true; Some true; None] (fresh 8) = Ok after' /\
    List.length after' = List.length (fresh 8) /\
    written_upto after' 3 /\
    isMatch "ab" after' = Ok m /\
    (m = true <->
     exists i j, (i < 2)%nat /\ (j < 2)%nat /\
                 marked [Some true; Some true; None] i /\
                 reach (makeAlternationPattern (makeSymbolPattern "a")
                          (makeSymbolPattern "b")) "ab" i j) /\
    (forall j, (j <= 2)%nat -> marked after' j ->
               exists i, (i < 2)%nat /\ marked [Some true; Some true; None] i /\
                         reach (makeAlternationPattern (makeSymbolPattern "a")
                                  (makeSymbolPattern "b")) "ab" i j) /\
    (forall k, (2 < k)%nat -> nth_error after' k = nth_error (fresh 8) k).
Proof.
  apply (top_match_verdict
           (makeAlternationPattern (makeSymbolPattern "a") (makeSymbolPattern "b"))
           eq_refl "ab" 2 [Some true; Some true; None] (fresh 8)).
  - reflexivity.
  - reflexivity.
  - intros [|[|i]] Hi; simpl; eauto. lia.
  - simpl; lia.
Defined.

(** * Further properties of mygrep.c *)

(** ** One line through [main] *)

Lemma int_of_small (z : Z) : 0 <= z < 2147483648 -> int_of z = z.
Proof.
  intros H. unfold int_of. rewrite Z.mod_small; lia.
Qed.

Lemma main_before_marks (n : nat) :
  exists before,
    main_before (Z.of_nat n) = Ok before /\
    written_upto before n /\
    forall i, (i < n)%nat -> marked before i.
Proof.
  exists (repeat (Some true) n ++ [None]).
  assert (Hm : forall i, (i < n)%nat ->
                         marked (repeat (Some true) n ++ [None]) i).
  { intros i Hi. unfold marked.
    rewrite nth_error_app1 by (rewrite repeat_length; exact Hi).
    rewrite nth_error_repeat; auto. }
  split; [|split; [|exact Hm]].
  - unfold main_before, fresh.
    replace (Z.to_nat (Z.of_nat n + 1)) with (S n) by lia.
    rewrite Nat2Z.id. exact (fill_loop n 0).
  - intros i Hi. exists true. now apply Hm.
Qed.

Lemma main_line_top_gen (after_cells : Z) (p : Pattern) (line : string) :
  top_pattern p = true ->
  strlen line < after_cells ->
  strlen line < INT_MAX ->
  exists m,
    main_line after_cells p line = Ok m /\
    (m = true <->
     exists i j, (j < Z.to_nat (strlen line))%nat /\ reach p line i j).
Proof.
  intros Hp Hk Hmax. pose proof (strlen_nonneg line) as H0.
  unfold INT_MAX in Hmax.
  set (n := Z.to_nat (strlen line)).
  assert (Hn : strlen line = Z.of_nat n) by (unfold n; lia).
  unfold main_line. rewrite int_of_small by lia. rewrite Hn.
  destruct (main_before_marks n) as (before & Eb & Wb & Mb).
  rewrite Eb. cbn [bind].
  destruct (top_match_verdict_gen p Hp line n before (fresh after_cells))
    as (a' & m & E & _ & _ & M & V & _); auto.
  { unfold INT_MAX. lia. }
  { unfold fresh. rewrite repeat_length. lia. }
  rewrite E. cbn [bind]. exists m. split; [exact M|]. rewrite V. split.
  - intros (i & j & Hi & Hj & _ & Hr). eauto.
  - intros (i & j & Hj & Hr). exists i, j.
    pose proof (reach_lt_top p line Hp i j Hr).
    repeat split; auto; [lia|]. apply Mb. lia.
Qed.

(** X6. For a tree made of alternations over trees of symbols, dots and
    concatenations and a line shorter than the array [after] of [main],
    the turn of the loop of [main] returns, and the line is printed exactly
    when the pattern matches the characters between two positions [i] and
    [j] with [j] before the end of the last character: a match that needs
    the last character of the stored line (its newline, when it has one) is
    not seen. *)
Theorem main_line_top (after_cells : Z) (p : Pattern) (line : string) :
  top_pattern p = true ->
  strlen line < after_cells ->
  strlen line < INT_MAX ->
  exists m,
    main_line after_cells p line = Ok m /\
    (m = true <->
     exists i j, (j < Z.to_nat (strlen line))%nat /\ reach p line i j).
Proof. exact (@main_line_top_gen after_cells p line). Qed.

Lemma main_line_top_witness :
  exists m,
    main_line 8 (makeConcatenationPattern (makeSymbolPattern "a")
                   (makeSymbolPattern "b")) (ln "xab") = Ok m /\
    (m = true <->
     exists i j, (j < Z.to_nat (strlen (ln "xab")))%nat /\
                 reach (makeConcatenationPattern (makeSymbolPattern "a")
                          (makeSymbolPattern "b")) (ln "xab") i j).
Proof.
  apply (main_line_top 8
           (makeConcatenationPattern (makeSymbolPattern "a")
              (makeSymbolPattern "b")) (ln "xab")); reflexivity.
Defined.

(** ** Lines that do not fit the array [after] of [main] *)

Lemma set_nth_out (a : marks) :
  forall n b, (List.length a <= n)%nat -> set_nth a n b = Undefined.
Proof.
  induction a as [|c t IH]; intros n b H; [now destruct n|].
  simpl in H. destruct n as [|k]; [lia|]. simpl. rewrite IH by lia. reflexivity.
Qed.

Lemma wr_out (a : marks) (n : nat) (b : bool) :
  (List.length a <= n)%nat -> wr a (Z.of_nat n) b = Undefined.
Proof.
  intros H. unfold wr. destruct (Z.ltb_spec (Z.of_nat n) 0); [reflexivity|].
  rewrite Nat2Z.id. now apply set_nth_out.
Qed.

Lemma for_loop_write_overflow (g : Z -> res bool) (h : nat -> bool) :
  forall (k i0 : nat) (a : marks),
    (i0 < List.length a <= i0 + k)%nat ->
    (forall j, (i0 <= j < i0 + k)%nat -> g (Z.of_nat j) = Ok (h j)) ->
    for_loop k (Z.of_nat i0) (fun i after => v <- g i ;; wr after (i + 1) v) a
    = Undefined.
Proof.
  induction k as [|k IH]; intros i0 a Hlen Hg; [lia|].
  cbn [for_loop]. rewrite (Hg i0) by lia. cbn [bind].
  replace (Z.of_nat i0 + 1) with (Z.of_nat (S i0)) by lia.
  destruct (Nat.lt_ge_cases (S i0) (List.length a)) as [Hlt|Hge].
  - destruct (wr_ok a (S i0) (h i0) Hlt) as (a1 & E1 & L1 & _).
    rewrite E1. cbn [bind]. apply IH.
    + rewrite L1. lia.
    + intros j Hj. apply Hg. lia.
  - now rewrite wr_out.
Qed.

Lemma leaf_overflow (t : ascii -> bool) (line : string) (before after : marks)
  (n : nat) :
  (n <= String.length line)%nat ->
  written_upto before n ->
  (List.length after <= n)%nat ->
  (a0 <- wr after 0 false ;;
   for_loop (Z.to_nat (Z.of_nat n)) 0
     (fun i after =>
        b <- rd before i ;;
        v <- (if b then c <- char_at line i ;; Ok (t c) else Ok false) ;;
        wr after (i + 1) v) a0) = Undefined.
Proof.
  intros Hn W Ha.
  destruct (Nat.lt_ge_cases 0 (List.length after)) as [Hpos|Hz].
  2:{ change 0 with (Z.of_nat 0). now rewrite wr_out. }
  set (h := fun i => cell_val before i && char_test t line i).
  set (g := fun i : Z =>
              b <- rd before i ;;
              if b then ch <- char_at line i ;; Ok (t ch) else Ok false).
  destruct (wr_ok after 0 false Hpos) as (a0 & E0 & L0 & _).
  change (Z.of_nat 0) with 0 in E0. rewrite E0; cbn [bind].
  rewrite Nat2Z.id.
  rewrite (for_loop_ext _ (fun i after => v <- g i ;; wr after (i + 1) v))
    by (intros i s; unfold g; now rewrite bind_assoc).
  apply (for_loop_write_overflow g h n 0 a0); [lia|].
  intros j Hj. unfold g, h.
  rewrite (rd_written before n j W) by lia. cbn [bind].
  destruct (cell_val before j); [|reflexivity].
  destruct (get_lt line j) as (d & Hd); [lia|].
  rewrite (char_at_get _ _ _ Hd). unfold char_test. now rewrite Hd.
Qed.

Lemma top_overflow (p : Pattern) :
  top_pattern p = true ->
  forall (line : string) (n : nat) (before after : marks),
    (n <= String.length line)%nat ->
    Z.of_nat n < INT_MAX ->
    written_upto before n ->
    (List.length after <= n)%nat ->
    call_match p (Z.of_nat n) line before after = Undefined.
Proof.
  induction p as [m d c | m d p1 IH1 p2 IH2 | m d p IH];
    intros Hs line n before after Hn Hmax W Ha;
    destruct m; cbn [top_pattern seq_pattern] in Hs; try discriminate.
  - cbn [call_match pattern_match matchSymbolPattern].
    exact (leaf_overflow (fun e => Ascii.eqb e c) line before after n Hn W Ha).
  - cbn [call_match pattern_match]. unfold matchDotPattern.
    exact (leaf_overflow (fun e => negb (Ascii.eqb e NUL)) line before after n
             Hn W Ha).
  - apply andb_true_iff in Hs. destruct Hs as [H1 H2].
    cbn [call_match pattern_match matchConcatenationPattern]. fold call_match.
    unfold vla.
    destruct (Z.ltb_spec 0 (Z.of_nat n + 1)) as [_|]; [|lia].
    destruct (Z.leb_spec (Z.of_nat n + 1) INT_MAX) as [_|]; [|lia].
    cbn [andb bind].
    destruct (seq_match_reach_gen p1 H1 line n before (fresh (Z.of_nat n + 1)))
      as (mid & E1 & _ & W1 & _); auto.
    { unfold fresh. rewrite repeat_length. lia. }
    rewrite E1. cbn [bind]. apply IH2; auto.
    + now apply seq_top.
    + apply written_upto_le with (n := S n); auto.
  - apply andb_true_iff in Hs. destruct Hs as [H1 H2].
    cbn [call_match pattern_match matchAlternationPattern]. fold call_match.
    now rewrite IH1.
Qed.

(** X7. The array [after] of [main] has [sizeof(before) / sizeof(before[0])]
    cells, whatever the line.  For a tree made of alternations over trees of
    symbols, dots and concatenations, a line of at least that many
    characters makes the match routine write past the end of the array:
    the turn of the loop of [main] has no defined result. *)
Theorem main_line_overflow (after_cells : Z) (p : Pattern) (line : string) :
  top_pattern p = true ->
  after_cells <= strlen line ->
  strlen line < INT_MAX ->
  main_line after_cells p line = Undefined.
Proof.
  intros Hp Hk Hmax. pose proof (strlen_nonneg line) as H0.
  unfold INT_MAX in Hmax.
  set (n := Z.to_nat (strlen line)).
  assert (Hn : strlen line = Z.of_nat n) by (unfold n; lia).
  unfold main_line. rewrite int_of_small by lia. rewrite Hn.
  destruct (main_before_marks n) as (before & Eb & Wb & Mb).
  rewrite Eb. cbn [bind].
  rewrite (top_overflow p Hp line n before (fresh after_cells)); auto.
  - unfold n. apply strlen_le_length.
  - unfold INT_MAX. lia.
  - unfold fresh. rewrite repeat_length. lia.
Qed.

Lemma main_line_overflow_witness :
  main_line 8 (makeSymbolPattern "a") (ln "abcdefgh") = Undefined.
Proof.
  apply (main_line_overflow 8 (makeSymbolPattern "a") (ln "abcdefgh"));
    [reflexivity | vm_compute; discriminate | reflexivity].
Defined.

(** ** What the parser builds *)

Lemma suffix_at_get (str : string) :
  forall i s, suffix_at str i s -> String.get i str = String.get 0 s.
Proof.
  induction str as [|d t IH]; intros [|k] s H; cbn [suffix_at] in H;
    try contradiction; subst; try reflexivity.
  cbn [String.get]. now apply IH.
Qed.

Lemma suffix_at_length (str : string) :
  forall i s, suffix_at str i s ->
              String.length str = (i + String.length s)%nat.
Proof.
  induction str as [|d t IH]; intros [|k] s H; cbn [suffix_at] in H;
    try contradiction; subst; try reflexivity.
  cbn [String.length]. rewrite (IH k s H). lia.
Qed.

Lemma suffix_at_step (str : string) :
  forall i c s, suffix_at str i (String c s) -> suffix_at str (S i) s.
Proof.
  induction str as [|d t IH]; intros [|k] c s H; cbn [suffix_at] in H;
    try contradiction; try discriminate.
  - inversion H; subst. exact eq_refl.
  - cbn [suffix_at]. now apply (IH k c s).
Qed.

Lemma suffix_at_app (pre s : string) :
  suffix_at (pre ++ s) (String.length pre) s.
Proof. induction pre as [|d t IH]; cbn; auto. Qed.

Lemma char_at_suffix (str : string) (i : nat) (s : string) :
  suffix_at str i s -> char_at str (Z.of_nat i) = Ok (head_char s).
Proof.
  intros H. unfold char_at.
  destruct (Z.ltb_spec (Z.of_nat i) 0); [lia|].
  rewrite Nat2Z.id, (suffix_at_get _ _ _ H).
  pose proof (suffix_at_length _ _ _ H) as L.
  destruct s as [|c s]; cbn [String.get head_char].
  - cbn [String.length] in L.
    destruct (Nat.eqb_spec i (String.length str)); [reflexivity | lia].
  - reflexivity.
Qed.

Lemma parseAtomicPattern_atom (str : string) (i : nat) (c : ascii) (s : string) :
  suffix_at str i (String c s) ->
  parseAtomicPattern str (Z.of_nat i)
  = if atom_char c then Ok (atom c, Z.of_nat (S i)) else InvalidPattern.
Proof.
  intros H. unfold parseAtomicPattern, atom_char, atom.
  rewrite (char_at_suffix _ _ _ H). cbn [head_char bind].
  replace (Z.of_nat i + 1) with (Z.of_nat (S i)) by lia.
  destruct (ordinary c); [reflexivity|].
  destruct (Ascii.eqb c "."); [reflexivity|].
  destruct (Ascii.eqb c "^"); [reflexivity|].
  destruct (Ascii.eqb c "$"); reflexivity.
Qed.

Lemma atom_char_goes_on (c : ascii) :
  atom_char c = true -> stop_concat c = false.
Proof.
  unfold atom_char, stop_concat. intros H.
  destruct (Ascii.eqb_spec c NUL) as [->|_]; [discriminate H|].
  destruct (Ascii.eqb_spec c "|") as [->|_]; [discriminate H|].
  destruct (Ascii.eqb_spec c ")") as [->|_]; [discriminate H|].
  reflexivity.
Qed.

Lemma concat_cond (c : ascii) :
  negb (Ascii.eqb c NUL) && negb (Ascii.eqb c "|") && negb (Ascii.eqb c ")")
  = negb (stop_concat c).
Proof.
  unfold stop_concat.
  destruct (Ascii.eqb c NUL), (Ascii.eqb c "|"), (Ascii.eqb c ")"); reflexivity.
Qed.

Lemma concat_loop (str : string) (rest : string) :
  stop_concat (head_char rest) = true ->
  forall (seg : string) (p : Pattern) (i fuel : nat),
    suffix_at str i (seg ++ rest) ->
    all_atom_chars seg = true ->
    (String.length seg < fuel)%nat ->
    exists j,
      while_loop fuel
        (fun st : Pattern * Z =>
           c <- char_at str (snd st) ;;
           Ok (negb (Ascii.eqb c NUL) && negb (Ascii.eqb c "|")
               && negb (Ascii.eqb c ")")))
        (fun st : Pattern * Z =>
           r <- parseRepetition str (snd st) ;;
           Ok (makeConcatenationPattern (fst st) (fst r), snd r))
        (p, Z.of_nat i)
      = Ok (chain_from p seg, Z.of_nat j) /\
      suffix_at str j rest.
Proof.
  intros Hrest. induction seg as [|c seg IH]; intros p i fuel Hs Ha Hf;
    (destruct fuel as [|fuel]; [cbn [String.length] in Hf; lia|]);
    cbn [while_loop snd fst].
  - cbn [append] in Hs. rewrite (char_at_suffix _ _ _ Hs). cbn [bind].
    rewrite concat_cond, Hrest. cbn [negb]. exists i. split; [reflexivity|exact Hs].
  - cbn [append] in Hs. cbn [all_atom_chars] in Ha.
    apply andb_true_iff in Ha. destruct Ha as [Hc Ha].
    rewrite (char_at_suffix _ _ _ Hs). cbn [bind head_char].
    rewrite concat_cond, (atom_char_goes_on c Hc). cbn [negb].
    unfold parseRepetition. rewrite (parseAtomicPattern_atom _ _ _ _ Hs), Hc.
    cbn [bind fst snd].
    apply IH; auto.
    + now apply suffix_at_step in Hs.
    + cbn [String.length] in Hf. lia.
Qed.

Lemma parseConcatenation_segment (str : string) (i : nat) (seg rest : string) :
  suffix_at str i (seg ++ rest) ->
  segment seg = true ->
  stop_concat (head_char rest) = true ->
  exists j, parseConcatenation str (Z.of_nat i) = Ok (chain seg, Z.of_nat j) /\
            suffix_at str j rest.
Proof.
  intros Hs Hseg Hrest. destruct seg as [|c seg]; [discriminate|].
  cbn [segment all_atom_chars] in Hseg.
  apply andb_true_iff in Hseg. destruct Hseg as [Hc Ha].
  unfold parseConcatenation, parseRepetition.
  cbn [append] in Hs.
  rewrite (parseAtomicPattern_atom _ _ _ _ Hs), Hc. cbn [bind chain].
  apply (concat_loop str rest Hrest seg (atom c) (S i)); auto.
  - now apply suffix_at_step in Hs.
  - pose proof (suffix_at_length _ _ _ Hs) as L. unfold parse_fuel.
    cbn [String.length] in L.
    assert (String.length seg <= String.length (seg ++ rest))%nat.
    { clear. induction seg; cbn; lia. }
    lia.
Qed.

Lemma length_append (a b : string) :
  String.length (a ++ b) = (String.length a + String.length b)%nat.
Proof. induction a as [|c a IH]; cbn; auto. Qed.

Lemma render_tail_length (segs : list string) (rest : string) :
  (List.length segs <= String.length (render_tail segs rest))%nat.
Proof.
  induction segs as [|seg l IH]; cbn [render_tail List.length String.length];
    [lia|].
  rewrite length_append. lia.
Qed.

Lemma final_stop_concat (c : ascii) : final_stop c = true -> stop_concat c = true.
Proof.
  unfold final_stop, stop_concat.
  destruct (Ascii.eqb c NUL), (Ascii.eqb c "|"), (Ascii.eqb c ")");
    simpl; congruence.
Qed.

Lemma final_stop_alt_cond (c : ascii) :
  final_stop c = true -> negb (Ascii.eqb c NUL) && Ascii.eqb c "|" = false.
Proof.
  unfold final_stop.
  destruct (Ascii.eqb_spec c NUL) as [->|_]; [reflexivity|].
  destruct (Ascii.eqb_spec c ")") as [->|_]; [reflexivity | discriminate].
Qed.

Lemma alt_loop (str : string) (rest : string) :
  final_stop (head_char rest) = true ->
  forall (segs : list string) (p : Pattern) (i fuel : nat),
    suffix_at str i (render_tail segs rest) ->
    forallb segment segs = true ->
    (List.length segs < fuel)%nat ->
    exists j,
      while_loop fuel
        (fun st : Pattern * Z =>
           c <- char_at str (snd st) ;;
           Ok (negb (Ascii.eqb c NUL) && Ascii.eqb c "|"))
        (fun st : Pattern * Z =>
           r <- parseConcatenation str (snd st + 1) ;;
           Ok (makeAlternationPattern (fst st) (fst r), snd r))
        (p, Z.of_nat i)
      = Ok (fold_left (fun p q => makeAlternationPattern p (chain q)) segs p,
            Z.of_nat j) /\
      suffix_at str j rest.
Proof.
  intros Hrest. induction segs as [|seg l IH]; intros p i fuel Hs Ha Hf;
    (destruct fuel as [|fuel]; [cbn [List.length] in Hf; lia|]);
    cbn [while_loop snd fst].
  - cbn [render_tail] in Hs. rewrite (char_at_suffix _ _ _ Hs). cbn [bind].
    rewrite (final_stop_alt_cond _ Hrest).
    exists i. split; [reflexivity | exact Hs].
  - cbn [render_tail] in Hs. cbn [forallb] in Ha.
    apply andb_true_iff in Ha. destruct Ha as [Hseg Ha].
    rewrite (char_at_suffix _ _ _ Hs). cbn [bind head_char].
    change (negb (Ascii.eqb "|" NUL) && Ascii.eqb "|" "|") with true.
    cbv iota.
    replace (Z.of_nat i + 1) with (Z.of_nat (S i)) by lia.
    destruct (parseConcatenation_segment str (S i) seg (render_tail l rest))
      as (j & E & Hj).
    + now apply suffix_at_step in Hs.
    + exact Hseg.
    + destruct l as [|seg' l']; [|reflexivity].
      cbn [render_tail]. now apply final_stop_concat.
    + rewrite E. cbn [bind fst snd fold_left].
      apply IH; auto. cbn [List.length] in Hf. lia.
Qed.

Lemma parseAlternation_alternatives_gen
  (s : string) (segs : list string) (rest : string) :
  forallb segment (s :: segs) = true ->
  final_stop (head_char rest) = true ->
  parseAlternation (s ++ render_tail segs rest) 0
  = Ok (fold_left (fun p q => makeAlternationPattern p (chain q)) segs (chain s),
        Z.of_nat (String.length (s ++ render_tail segs rest)
                  - String.length rest)).
Proof.
  intros Ha Hrest. cbn [forallb] in Ha.
  apply andb_true_iff in Ha. destruct Ha as [Hs Ha].
  set (str := (s ++ render_tail segs rest)%string).
  unfold parseAlternation.
  destruct (parseConcatenation_segment str 0 s (render_tail segs rest))
    as (j & E & Hj).
  - exact eq_refl.
  - exact Hs.
  - destruct segs as [|seg l]; [|reflexivity].
    cbn [render_tail]. now apply final_stop_concat.
  - change (Z.of_nat 0) with 0 in E. rewrite E. cbn [bind].
    destruct (alt_loop str rest Hrest segs (chain s) j (parse_fuel str))
      as (k & Ek & Hk); auto.
    + pose proof (suffix_at_length _ _ _ Hj).
      pose proof (render_tail_length segs rest). unfold parse_fuel. lia.
    + rewrite Ek. pose proof (suffix_at_length _ _ _ Hk) as L.
      do 3 f_equal. lia.
Qed.

(** X8. A pattern made of non-empty runs of atom characters (ordinary
    characters, '.', '^', '$') separated by '|', up to its end or up to a
    ')', parses to the alternation, nested to the left, of the
    concatenations, nested to the left, of the leaves of each run; the
    cursor returned is the index of what follows the runs. *)
Theorem parseAlternation_alternatives
  (s : string) (segs : list string) (rest : string) :
  forallb segment (s :: segs) = true ->
  final_stop (head_char rest) = true ->
  parseAlternation (s ++ render_tail segs rest) 0
  = Ok (fold_left (fun p q => makeAlternationPattern p (chain q)) segs (chain s),
        Z.of_nat (String.length (s ++ render_tail segs rest)
                  - String.length rest)).
Proof. exact (@parseAlternation_alternatives_gen s segs rest). Qed.

Lemma parseAlternation_alternatives_witness :
  parseAlternation ("ab" ++ render_tail ["c.d"; "^e$"] ")x") 0
  = Ok (fold_left (fun p q => makeAlternationPattern p (chain q))
          ["c.d"; "^e$"] (chain "ab"),
        Z.of_nat (String.length ("ab" ++ render_tail ["c.d"; "^e$"] ")x")
                  - String.length ")x")).
Proof.
  apply (parseAlternation_alternatives "ab" ["c.d"; "^e$"] ")x"); reflexivity.
Defined.

(** ** What a successful parse has read *)

Lemma char_at_chr (str : string) (k : nat) :
  (k <= String.length str)%nat -> char_at str (Z.of_nat k) = Ok (chr str k).
Proof.
  intros H. unfold char_at, chr.
  destruct (Z.ltb_spec (Z.of_nat k) 0); [lia|]. rewrite Nat2Z.id.
  destruct (String.get k str) as [c|] eqn:E; [reflexivity|].
  destruct (Nat.eqb_spec k (String.length str)); [reflexivity|].
  destruct (get_lt str k) as (c & Hc); [lia | congruence].
Qed.

Lemma atom_char_inside (str : string) (k : nat) :
  (k <= String.length str)%nat -> atom_char (chr str k) = true ->
  (k < String.length str)%nat.
Proof.
  intros H Ha. destruct (Nat.eq_dec k (String.length str)) as [->|]; [|lia].
  unfold chr in Ha.
  destruct (String.get (String.length str) str) as [c|] eqn:E.
  - apply get_some_lt in E. lia.
  - discriminate Ha.
Qed.

Lemma parseAtomicPattern_chr (str : string) (k : nat) :
  (k <= String.length str)%nat ->
  parseAtomicPattern str (Z.of_nat k)
  = if atom_char (chr str k) then Ok (atom (chr str k), Z.of_nat (S k))
    else InvalidPattern.
Proof.
  intros H. unfold parseAtomicPattern, atom_char, atom.
  rewrite (char_at_chr _ _ H). cbn [bind].
  replace (Z.of_nat k + 1) with (Z.of_nat (S k)) by lia.
  destruct (ordinary (chr str k)); [reflexivity|].
  destruct (Ascii.eqb (chr str k) "."); [reflexivity|].
  destruct (Ascii.eqb (chr str k) "^"); [reflexivity|].
  destruct (Ascii.eqb (chr str k) "$"); reflexivity.
Qed.

Lemma atom_built (c : ascii) : built (atom c) = true.
Proof.
  unfold atom. destruct (ordinary c); [reflexivity|].
  destruct (Ascii.eqb c "."); [reflexivity|].
  destruct (Ascii.eqb c "^"); reflexivity.
Qed.

Lemma atom_seq (c : ascii) :
  atom_char c = true -> not_anchor c = true -> seq_pattern (atom c) = true.
Proof.
  unfold atom_char, not_anchor, atom. intros Ha Hn.
  destruct (ordinary c); [reflexivity|].
  destruct (Ascii.eqb c "."); [reflexivity|].
  destruct (Ascii.eqb c "^"); [discriminate|].
  destruct (Ascii.eqb c "$"); discriminate.
Qed.

Lemma scanned_cursor str ok shape from lo st :
  scanned str ok shape from lo st ->
  exists j, snd st = Z.of_nat j /\ (lo < j <= String.length str)%nat.
Proof. intros (j & E & H & _). eauto. Qed.

Lemma parseConcatenation_scan (str : string) (i : nat) :
  (i <= String.length str)%nat ->
  parseConcatenation str (Z.of_nat i) = InvalidPattern \/
  exists st, parseConcatenation str (Z.of_nat i) = Ok st /\
             scanned str atom_char seq_pattern i i st /\
             stop_concat (chr str (Z.to_nat (snd st))) = true.
Proof.
  intros Hi. unfold parseConcatenation, parseRepetition.
  rewrite (parseAtomicPattern_chr _ _ Hi).
  destruct (atom_char (chr str i)) eqn:Hc; [|now left]. cbn [bind].
  pose proof (atom_char_inside _ _ Hi Hc) as Hlt.
  match goal with
  | |- while_loop ?ff ?cc ?bb ?ss = _ \/ _ =>
      destruct (while_loop_total
                  (scanned str atom_char seq_pattern i i)
                  (fun st => (String.length str - Z.to_nat (snd st))%nat)
                  cc bb) with (fuel := ff) (s := ss)
        as [-> | (st & -> & Hst & _ & Hcond)]
  end.
  - intros st (j & E & Hj & _). rewrite E, char_at_chr by lia. cbn [bind]. eauto.
  - intros [p z] (j & E & Hj & Hok & Hb & Hsh) _. cbn [fst snd] in *. subst z.
    rewrite parseAtomicPattern_chr by lia.
    destruct (atom_char (chr str j)) eqn:Hcj; [|now left]. right.
    pose proof (atom_char_inside str j (proj2 Hj) Hcj) as Hjl.
    cbn [bind fst snd]. eexists. split; [reflexivity|]. split.
    + exists (S j). cbn [fst snd]. split; [reflexivity|]. split; [lia|].
      split; [|split].
      * intros k Hk. destruct (Nat.eq_dec k j) as [->|]; [exact Hcj|].
        apply Hok. lia.
      * cbn [built makeConcatenationPattern]. now rewrite Hb, atom_built.
      * intros Hn. cbn [seq_pattern makeConcatenationPattern].
        rewrite Hsh by (intros k Hk; apply Hn; lia).
        apply atom_seq; [exact Hcj|]. apply Hn. lia.
    + cbn [snd]. rewrite !Nat2Z.id. lia.
  - exists (S i). cbn [fst snd]. split; [reflexivity|]. split; [lia|].
    split; [|split].
    + intros k Hk. replace k with i by lia. exact Hc.
    + apply atom_built.
    + intros Hn. apply atom_seq; [exact Hc|]. apply Hn. lia.
  - unfold parse_fuel. cbn [snd]. lia.
  - now left.
  - right. exists st. split; [reflexivity|]. split; [exact Hst|].
    destruct Hst as (j & E & Hj & _).
    rewrite E, char_at_chr in Hcond by lia. cbn [bind] in Hcond.
    rewrite concat_cond in Hcond. rewrite E, Nat2Z.id.
    destruct (stop_concat (chr str j)); [reflexivity|discriminate Hcond].
Qed.

Lemma parseAlternation_scan (str : string) :
  parseAlternation str 0 = InvalidPattern \/
  exists st, parseAlternation str 0 = Ok st /\
             scanned str (fun c => atom_char c || Ascii.eqb c "|") top_pattern
               0 0 st /\
             final_stop (chr str (Z.to_nat (snd st))) = true.
Proof.
  unfold parseAlternation.
  set (okalt := fun c => atom_char c || Ascii.eqb c "|").
  destruct (parseConcatenation_scan str 0) as [E | (st0 & E & Hs0 & Hstop0)];
    [lia | | ]; change (Z.of_nat 0) with 0 in E; rewrite E; cbn [bind];
    [now left|].
  match goal with
  | |- while_loop ?ff ?cc ?bb ?ss = _ \/ _ =>
      destruct (while_loop_total
                  (fun st => scanned str okalt top_pattern 0 0 st /\
                             stop_concat (chr str (Z.to_nat (snd st))) = true)
                  (fun st => (String.length str - Z.to_nat (snd st))%nat)
                  cc bb) with (fuel := ff) (s := ss)
        as [-> | (st & -> & (Hst & Hstop) & _ & Hcond)]
  end.
  - intros st ((j & Ej & Hj & _) & _). rewrite Ej, char_at_chr by lia.
    cbn [bind]. eauto.
  - intros [p z] ((j & Ej & Hj & Hok & Hb & Hsh) & _) Hcond.
    cbn [fst snd] in *. subst z.
    rewrite char_at_chr in Hcond by lia. cbn [bind] in Hcond.
    injection Hcond as Hcond. apply andb_true_iff in Hcond.
    destruct Hcond as [Hnz Hbar].
    assert (Hjl : (j < String.length str)%nat).
    { destruct (Nat.eq_dec j (String.length str)) as [->|]; [|lia].
      unfold chr in Hnz.
      destruct (String.get (String.length str) str) eqn:G;
        [apply get_some_lt in G; lia | discriminate Hnz]. }
    replace (Z.of_nat j + 1) with (Z.of_nat (S j)) by lia.
    destruct (parseConcatenation_scan str (S j))
      as [-> | ([q z] & -> & (j2 & E2 & Hj2 & Hok2 & Hb2 & Hsh2) & Hstop2)];
      [lia | now left |].
    right. cbn [bind fst snd] in *. subst z.
    eexists. split; [reflexivity|]. split; [split|].
    + exists j2. cbn [fst snd]. split; [reflexivity|]. split; [lia|].
      split; [|split].
      * intros k Hk. unfold okalt.
        destruct (Nat.lt_ge_cases k j) as [Hlt|Hge]; [apply Hok; lia|].
        destruct (Nat.eq_dec k j) as [->|];
          [rewrite Hbar; apply orb_true_r|].
        rewrite Hok2 by lia. reflexivity.
      * cbn [built makeAlternationPattern]. now rewrite Hb, Hb2.
      * intros Hn. cbn [top_pattern makeAlternationPattern].
        rewrite Hsh by (intros k Hk; apply Hn; lia).
        apply seq_top, Hsh2. intros k Hk. apply Hn. lia.
    + exact Hstop2.
    + cbn [snd]. rewrite !Nat2Z.id. lia.
  - split; [|exact Hstop0].
    destruct Hs0 as (j & Ej & Hj & Hok & Hb & Hsh).
    exists j. split; [exact Ej|]. split; [exact Hj|]. split; [|split].
    + intros k Hk. unfold okalt. now rewrite Hok.
    + exact Hb.
    + intros Hn. apply seq_top, Hsh, Hn.
  - unfold parse_fuel. lia.
  - now left.
  - right. exists st. split; [reflexivity|]. split; [exact Hst|].
    destruct Hst as (j & Ej & Hj & _).
    rewrite Ej, char_at_chr in Hcond by lia. cbn [bind] in Hcond.
    rewrite Ej, Nat2Z.id in *. injection Hcond as Hcond.
    unfold stop_concat in Hstop. unfold final_stop.
    destruct (Ascii.eqb (chr str j) NUL), (Ascii.eqb (chr str j) "|"),
      (Ascii.eqb (chr str j) ")"); simpl in *; congruence.
Qed.



(** ** destroy *)

Lemma call_destroy_built (p : Pattern) :
  built p = true -> call_destroy p = Ok (postorder p).
Proof.
  induction p as [m d c | m d p1 IH1 p2 IH2 | m d p IH]; intros H;
    destruct m, d; cbn [built] in H; try discriminate;
    cbn [call_destroy pattern_destroy destroySimplePattern
         destroyBinaryPattern destroyRepitPattern postorder];
    try reflexivity.
  - apply andb_true_iff in H. destruct H as [H1 H2].
    fold call_destroy. now rewrite IH1, IH2.
  - apply andb_true_iff in H. destruct H as [H1 H2].
    fold call_destroy. now rewrite IH1, IH2.
  - fold call_destroy. now rewrite IH.
Qed.

(** X10. For the tree of a successful parse, [pat->destroy(pat)] returns and
    hands every struct of the tree to [free] once, the children of a struct
    before the struct itself and the root last. *)
Theorem parse_then_destroy (str : string) (p : Pattern) (pos : Z) :
  parseAlternation str 0 = Ok (p, pos) ->
  call_destroy p = Ok (postorder p).
Proof.
  intros H.
  destruct (parseAlternation_scan str) as [E | (st & E & Hs & _)];
    rewrite E in H; [discriminate|].
  injection H as ->. destruct Hs as (j & _ & _ & _ & Hb & _).
  now apply call_destroy_built.
Qed.

Lemma parse_then_destroy_witness :
  call_destroy (makeAlternationPattern (makeSymbolPattern "a")
                  (makeConcatenationPattern (makeSymbolPattern "b")
                     (makeDotPattern ".")))
  = Ok (postorder (makeAlternationPattern (makeSymbolPattern "a")
                     (makeConcatenationPattern (makeSymbolPattern "b")
                        (makeDotPattern ".")))).
Proof.
  apply (parse_then_destroy "a|b."
           (makeAlternationPattern (makeSymbolPattern "a")
              (makeConcatenationPattern (makeSymbolPattern "b")
                 (makeDotPattern "."))) 4).
  reflexivity.
Defined.

(** ** The whole run *)





(** ** Searching for a word *)

Lemma append_nil_r (s : string) : (s ++ "")%string = s.
Proof. induction s as [|c s IH]; cbn; congruence. Qed.












(** ** reportMarks *)

Lemma reportMarks_last (i : nat) (mk : marks) :
  written_upto mk (i + 0 + 1) ->
  exists out,
    (m <- rd mk (Z.of_nat i) ;;
     Ok (String (mark_char m) (String "010" EmptyString))) = Ok out /\
    String.length out = (2 * 0 + 2)%nat /\
    (forall t, (t <= 0)%nat ->
               String.get (2 * t) out = Some (mark_char (cell_val mk (i + t)))) /\
    String.get (2 * 0 + 1) out = Some "010"%char.
Proof.
  intros W. rewrite (rd_written mk _ i W) by lia. cbn [bind].
  eexists. split; [reflexivity|]. split; [reflexivity|].
  split; [|reflexivity].
  intros t Ht. replace t with 0%nat by lia. now rewrite Nat.add_0_r.
Qed.

Lemma reportMarks_from_format (s : string) :
  forall (i : nat) (mk : marks),
    written_upto mk (i + Z.to_nat (strlen s) + 1) ->
    exists out,
      reportMarks_from s (Z.of_nat i) mk = Ok out /\
      String.length out = (2 * Z.to_nat (strlen s) + 2)%nat /\
      (forall t, (t <= Z.to_nat (strlen s))%nat ->
                 String.get (2 * t) out = Some (mark_char (cell_val mk (i + t)))) /\
      (forall t, (t < Z.to_nat (strlen s))%nat ->
                 String.get (2 * t + 1) out = String.get t s) /\
      String.get (2 * Z.to_nat (strlen s) + 1) out = Some "010"%char.
Proof.
  induction s as [|c s IH]; intros i mk W; cbn [reportMarks_from strlen] in *.
  - destruct (reportMarks_last i mk W) as (out & E & L & G & N).
    exists out. split; [exact E|]. split; [exact L|]. split; [exact G|].
    split; [|exact N]. intros t Ht. cbn in Ht. lia.
  - destruct (Ascii.eqb c NUL).
    + destruct (reportMarks_last i mk W) as (out & E & L & G & N).
      exists out. split; [exact E|]. split; [exact L|]. split; [exact G|].
      split; [|exact N]. intros t Ht. cbn in Ht. lia.
    + pose proof (strlen_nonneg s) as Hs.
      replace (Z.to_nat (1 + strlen s)) with (S (Z.to_nat (strlen s))) in * by lia.
      set (n := Z.to_nat (strlen s)) in *.
      rewrite (rd_written mk _ i W) by lia. cbn [bind].
      replace (Z.of_nat i + 1) with (Z.of_nat (S i)) by lia.
      destruct (IH (S i) mk) as (out & E & L & G & C & N).
      { intros k Hk. apply W. lia. }
      rewrite E. cbn [bind]. eexists. split; [reflexivity|].
      split; [cbn [String.length]; lia|]. split; [|split].
      * intros [|t] Ht.
        -- cbn. now rewrite Nat.add_0_r.
        -- replace (2 * S t)%nat with (S (S (2 * t))) by lia. cbn [String.get].
           rewrite G by lia. do 3 f_equal. lia.
      * intros [|t] Ht; [reflexivity|].
        replace (2 * S t + 1)%nat with (S (S (2 * t + 1))) by lia.
        cbn [String.get]. apply C. lia.
      * replace (2 * S n + 1)%nat with (S (S (2 * n + 1))) by lia.
        cbn [String.get]. exact N.
Qed.

(** X13. When the cells 0..strlen(str) of [marks] are written,
    [reportMarks] returns and prints 2*strlen(str)+2 characters: at every
    even offset 2t the sign of cell t ('*' for a mark, a blank otherwise),
    the final cell included, at every odd offset 2t+1 character t of
    [str], and a newline at the end. *)
Theorem reportMarks_format (str : string) (mk : marks) :
  written_upto mk (S (Z.to_nat (strlen str))) ->
  exists out,
    reportMarks str mk = Ok out /\
    String.length out = (2 * Z.to_nat (strlen str) + 2)%nat /\
    (forall t, (t <= Z.to_nat (strlen str))%nat ->
               String.get (2 * t) out = Some (mark_char (cell_val mk t))) /\
    (forall t, (t < Z.to_nat (strlen str))%nat ->
               String.get (2 * t + 1) out = String.get t str) /\
    String.get (2 * Z.to_nat (strlen str) + 1) out = Some "010"%char.
Proof.
  intros W. apply (reportMarks_from_format str 0 mk).
  intros k Hk. apply W. lia.
Qed.

Lemma reportMarks_format_witness :
  exists out,
    reportMarks "ab" [Some false; Some true; Some true] = Ok out /\
    String.length out = (2 * Z.to_nat (strlen "ab") + 2)%nat /\
    (forall t, (t <= Z.to_nat (strlen "ab"))%nat ->
       String.get (2 * t) out
       = Some (mark_char (cell_val [Some false; Some true; Some true] t))) /\
    (forall t, (t < Z.to_nat (strlen "ab"))%nat ->
               String.get (2 * t + 1) out = String.get t "ab") /\
    String.get (2 * Z.to_nat (strlen "ab") + 1) out = Some "010"%char.
Proof.
  apply (reportMarks_format "ab" [Some false; Some true; Some true]).
  intros [|[|[|i]]] Hi; simpl; eauto. simpl in Hi. lia.
Defined.

(** * Anchored patterns *)

Lemma main_loop_Ok (after_cells : Z) (p : Pattern) :
  forall input out,
    main_loop after_cells p input = Ok out ->
    forall line, In line input -> exists m, main_line after_cells p line = Ok m.
Proof.
  induction input as [|l rest IH]; intros out H line Hin; [contradiction|].
  cbn [main_loop] in H. inv_bind H. inv_bind H.
  destruct Hin as [<-|Hin]; eauto.
Qed.







Lemma wr_spec (a : marks) (i : Z) (b : bool) (a' : marks) :
  wr a i b = Ok a' ->
  exists n, i = Z.of_nat n /\
            forall j, nth_error a' j
                      = if Nat.eqb j n then Some (Some b) else nth_error a j.
Proof.
  intros H. assert (Hi : 0 <= i).
  { unfold wr in H. destruct (Z.ltb_spec i 0); [discriminate | lia]. }
  exists (Z.to_nat i). split; [lia|].
  rewrite <- (Z2Nat.id i Hi) in H.
  destruct (Nat.lt_ge_cases (Z.to_nat i) (List.length a)) as [Hlt|Hge].
  - destruct (wr_ok a _ b Hlt) as (a'' & E & _ & G & F).
    rewrite E in H. injection H as <-. intros j.
    destruct (Nat.eqb_spec j (Z.to_nat i)) as [->|Hne]; auto.
  - rewrite wr_out in H by exact Hge. discriminate.
Qed.

Lemma for_loop_keeps_range {St : Type} (P : St -> Prop)
  (body : Z -> St -> res St) :
  forall k i0,
    (forall j s s', (i0 <= j < i0 + k)%nat ->
                    body (Z.of_nat j) s = Ok s' -> P s -> P s') ->
    forall s s', for_loop k (Z.of_nat i0) body s = Ok s' -> P s -> P s'.
Proof.
  induction k as [|k IH]; intros i0 Hb s s' H Hs; cbn [for_loop] in H.
  - injection H as <-. exact Hs.
  - inv_bind H. replace (Z.of_nat i0 + 1) with (Z.of_nat (S i0)) in H by lia.
    apply (IH (S i0)) with (s := x); auto.
    + intros j t t' Hj. apply Hb. lia.
    + apply (Hb i0 s x); auto. lia.
Qed.

Lemma rd_nat (a : marks) (i : nat) :
  rd a (Z.of_nat i)
  = match nth_error a i with
    | Some (Some b) => Ok b
    | _ => Undefined
    end.
Proof.
  unfold rd. destruct (Z.ltb_spec (Z.of_nat i) 0); [lia|].
  now rewrite Nat2Z.id.
Qed.

Lemma isMatch_from_gap (s : string) :
  forall (i j : nat) (a : marks),
    (i <= j < i + Z.to_nat (strlen s))%nat ->
    (forall b, nth_error a j <> Some (Some b)) ->
    (forall t, (i <= t < j)%nat -> ~ marked a t) ->
    isMatch_from s (Z.of_nat i) a = Undefined.
Proof.
  induction s as [|c s IH]; intros i j a Hj Hgap Hno;
    cbn [isMatch_from strlen] in *; [simpl in Hj; lia|].
  destruct (Ascii.eqb c NUL); [simpl in Hj; lia|].
  pose proof (strlen_nonneg s) as Hs.
  replace (Z.to_nat (1 + strlen s)) with (S (Z.to_nat (strlen s))) in Hj by lia.
  rewrite rd_nat.
  destruct (nth_error a i) as [[[|]|]|] eqn:E; cbn [bind]; try reflexivity.
  - exfalso. destruct (Nat.eq_dec j i) as [->|Hne].
    + now apply (Hgap true).
    + apply (Hno i); [lia | exact E].
  - replace (Z.of_nat i + 1) with (Z.of_nat (S i)) by lia.
    apply (IH (S i) j a); auto.
    + destruct (Nat.eq_dec j i) as [->|Hne]; [|lia].
      exfalso. now apply (Hgap false).
    + intros t Ht. apply Hno. lia.
Qed.

(** What the end anchor leaves of an array in which no cell before [n]
    holds a mark and cell [n - 1] holds no value. *)
Lemma end_anchor_gap (sym : ascii) (n : nat) (line : string)
  (before after after' : marks) :
  (2 <= n)%nat ->
  call_match (makeEndAnchorPattern sym) (Z.of_nat n) line before after
  = Ok after' ->
  (forall t, (t < n)%nat -> ~ marked after t) ->
  (forall b, nth_error after (n - 1) <> Some (Some b)) ->
  (forall t, (t < n)%nat -> ~ marked after' t) /\
  (forall b, nth_error after' (n - 1) <> Some (Some b)).
Proof.
  intros Hn H Hno Hgap.
  set (Q := fun a : marks =>
              (forall t, (t < n)%nat -> ~ marked a t) /\
              (forall b, nth_error a (n - 1) <> Some (Some b))).
  assert (Hw : forall a a' i b,
             wr a (Z.of_nat i) b = Ok a' -> Q a ->
             (b = false \/ n <= i)%nat -> i <> (n - 1)%nat -> Q a').
  { intros a a' i b Hwr [Q1 Q2] Hb Hi.
    apply wr_spec in Hwr. destruct Hwr as (m & Em & Hm).
    apply Nat2Z.inj in Em. subst m. split.
    - intros t Ht. unfold marked. rewrite Hm.
      destruct (Nat.eqb_spec t i) as [->|_]; [|now apply Q1].
      destruct Hb as [->|Hb]; [discriminate | lia].
    - intros b'. rewrite Hm.
      destruct (Nat.eqb_spec (n - 1) i) as [E|_]; [congruence | apply Q2]. }
  cbn [call_match pattern_match makeEndAnchorPattern] in H.
  unfold matchEndAnchorPattern in H.
  inv_bind H. inv_bind H. inv_bind H.
  assert (Q0 : Q x).
  { apply (Hw after x 0%nat false); auto; [split; assumption | lia]. }
  assert (Q1 : Q x0).
  { apply (Hw x x0 n true); auto; lia. }
  destruct (negb x1).
  - replace (Z.to_nat (Z.of_nat n - 1)) with (n - 1)%nat in H by lia.
    change 0 with (Z.of_nat 0) in H.
    apply (for_loop_keeps_range Q) in H; auto.
    intros j s s' Hj Hwr Qs. apply (Hw s s' j false); auto. lia.
  - injection H as <-. exact Q1.
Qed.

Lemma fresh_cells (k : Z) (t : nat) (b : bool) :
  nth_error (fresh k) t <> Some (Some b).
Proof.
  unfold fresh. intros H. apply nth_error_In, repeat_spec in H. discriminate.
Qed.

Lemma chain_from_snoc (s : string) (c : ascii) :
  forall p,
    chain_from p (s ++ String c "")
    = makeConcatenationPattern (chain_from p s) (atom c).
Proof. induction s as [|d s IH]; intros p; cbn; auto. Qed.

Lemma all_atom_chars_snoc (s : string) (c : ascii) :
  all_atom_chars s = true -> atom_char c = true ->
  all_atom_chars (s ++ String c "") = true.
Proof.
  induction s as [|d s IH]; cbn; intros Hs Hc; [now rewrite Hc|].
  apply andb_true_iff in Hs. destruct Hs as [-> Hs]. now apply IH.
Qed.

(** X15. A pattern made of a non-empty run of atom characters and a final
    '$' parses, but the end anchor never writes cell [len - 1] of the array
    [after] of [main] and leaves no mark before it, so [isMatch] reads a
    cell that holds no value: on an input that has a line of two characters
    or more (newline included) the run has no result. *)
Theorem main_end_anchor
  (after_cells : Z) (w : string) (input : list string) (line : string) :
  segment w = true ->
  In line input ->
  2 <= strlen line < INT_MAX ->
  ~ exists out, main after_cells (w ++ "$") input = Ok out.
Proof.
  intros Hw Hin Hlen (out & H).
  destruct w as [|c w]; [discriminate|].
  cbn [segment all_atom_chars] in Hw. apply andb_true_iff in Hw.
  destruct Hw as [Hc Hw].
  pose proof (parseAlternation_alternatives_gen (String c w ++ "$") [] "") as Hp.
  cbn [render_tail fold_left forallb] in Hp. rewrite append_nil_r in Hp.
  cbn [append segment all_atom_chars] in Hp.
  rewrite Hc, all_atom_chars_snoc in Hp by auto.
  specialize (Hp eq_refl eq_refl).
  cbn [chain] in Hp. rewrite chain_from_snoc in Hp.
  change (atom "$") with (makeEndAnchorPattern "$") in Hp.
  unfold main in H. cbn [append] in H. rewrite Hp in H. cbn [bind fst] in H.
  destruct (main_loop_Ok _ _ _ _ H line Hin) as (m & Hm).
  unfold main_line in Hm.
  unfold INT_MAX in Hlen. rewrite int_of_small in Hm by lia.
  inv_bind Hm. inv_bind Hm.
  cbn [call_match pattern_match makeConcatenationPattern
       matchConcatenationPattern] in E0. fold call_match in E0.
  inv_bind E0. inv_bind E0.
  pose proof (strlen_nonneg line) as Hs.
  set (n := Z.to_nat (strlen line)) in *.
  assert (En : strlen line = Z.of_nat n) by (unfold n; lia).
  rewrite En in E0.
  apply (end_anchor_gap "$" n line x2 (fresh after_cells) x0) in E0.
  - destruct E0 as [Hno Hgap].
    unfold isMatch in Hm. change 0 with (Z.of_nat 0) in Hm.
    rewrite (isMatch_from_gap line 0 (n - 1) x0) in Hm;
      [discriminate | fold n; lia | exact Hgap | intros t Ht; apply Hno; lia].
  - lia.
  - intros t _. apply fresh_cells.
  - intros b. apply fresh_cells.
Qed.

Lemma main_end_anchor_witness :
  ~ exists out, main 8 ("ab" ++ "$") [ln ""; ln "ab"] = Ok out.
Proof.
  apply (main_end_anchor 8 "ab" [ln ""; ln "ab"] (ln "ab")).
  - reflexivity.
  - simpl. auto.
  - vm_compute. split; [discriminate | reflexivity].
Defined.

(** * Repetition nodes and ordinary characters *)



(** X17. [ordinary] is false exactly on the eleven characters of its list
    and on NUL, the terminator of the list that [strchr] also finds: the end
    of the pattern is never taken for a symbol. *)
Theorem ordinary_false_iff (c : ascii) :
  ordinary c = false <->
  In c ["."; "^"; "$"; "*"; "?"; "+"; "|"; "("; ")"; "["; "{"; NUL]%char.
Proof.
  unfold ordinary. cbn [strchr]. split.
  - intros H.
    repeat match goal with
           | H : context [Ascii.eqb ?a ?b] |- _ =>
               destruct (Ascii.eqb_spec a b);
               [subst; cbn [In]; tauto | cbn [orb] in H]
           end.
    discriminate H.
  - cbn [In]. intros H.
    repeat (destruct H as [<-|H]; [reflexivity|]). contradiction.
Qed.
